(** * oramacore-client: the collection manager, its utilities and the
    conversational answer session.

  The development embeds [src/lib/utils.ts] and [src/collection.ts] as
  Rocq functions and states the behaviour of the client over them.  The
  answer session (answer-session.ts) is modelled from the specification.

  Conventions of the embedding:
  - a JavaScript value is a term of [value]; [undefined] is a value;
  - a synchronous [throw] is the [Throw] completion of a call, a rejected
    promise is the [Rejected] settlement of the promise the call returns;
  - the HTTP collaborator is a log of the requests it was handed plus an
    oracle that settles each request. *)

From Stdlib Require Import ZArith QArith Qround Qpower Lqa.
From Stdlib Require Import List String Ascii DecimalString Bool Lia.
Import ListNotations.

Set Warnings "-register-all".

Close Scope Q_scope.

Local Open Scope string_scope.
Local Open Scope list_scope.

(** ** JavaScript values *)

Module JS.

(** Numbers are kept as integers: no operation modelled here computes on
    the numbers held inside a document. *)
Inductive value : Type :=
| VUndefined
| VNull
| VBool (b : bool)
| VNum (n : Z)
| VStr (s : string)
| VArr (items : list value)
| VObj (fields : list (string * value)).

(** [Array.isArray]. *)
Definition isArray (v : value) : bool :=
  match v with
  | VArr _ => true
  | _ => false
  end.

(** Truthiness of an optional string, as tested by [!x]: [undefined] and
    the empty string are falsy. *)
Definition truthy (x : option string) : bool :=
  match x with
  | None => false
  | Some "" => false
  | Some _ => true
  end.

(** [x || d] on an optional string. *)
Definition or_else (x : option string) (d : string) : string :=
  match x with
  | None => d
  | Some "" => d
  | Some s => s
  end.

(** [s.charAt(i)]: the one-character string at index [i], or the empty
    string when [i] is out of range. *)
Definition charAt (s : string) (i : Z) : string :=
  if (i <? 0)%Z then ""
  else match String.get (Z.to_nat i) s with
       | Some c => String c EmptyString
       | None => ""
       end.

(** [s.length]. *)
Definition length (s : string) : Z := Z.of_nat (String.length s).

(** What a [throw] carries, or a promise is rejected with: a plain
    [new Error(message)], or one of the typed errors of the session. *)
Inductive Exception : Type :=
| Error (message : string)
| ConfigurationError
| TransportError
| PlanStepError
| InvalidStateError.

End JS.

(** ** Calls with effects

    A call runs against a state of type [S]; it completes normally with a
    value or abruptly with an exception, and leaves a state behind in both
    cases. *)

Module Effect.

Inductive Completion (A : Type) : Type :=
| Return (a : A)
| Throw (e : JS.Exception).

Arguments Return {A} a.
Arguments Throw {A} e.

Definition M (S A : Type) : Type := S -> Completion A * S.

Definition ret {S A : Type} (a : A) : M S A := fun s => (Return a, s).

Definition throw {S A : Type} (e : JS.Exception) : M S A :=
  fun s => (Throw e, s).

Definition bind {S A B : Type} (m : M S A) (k : A -> M S B) : M S B :=
  fun s =>
    match m s with
    | (Return a, s') => k a s'
    | (Throw e, s') => (Throw e, s')
    end.

Definition get {S : Type} : M S S := fun s => (Return s, s).

Definition modify {S : Type} (f : S -> S) : M S unit :=
  fun s => (Return tt, f s).

(** Runs a call that cannot change the state. *)
Definition lift {S A : Type} (c : Completion A) : M S A := fun s => (c, s).

Definition completes {A : Type} (c : Completion A) : bool :=
  match c with
  | Return _ => true
  | Throw _ => false
  end.

Declare Scope effect_scope.
Delimit Scope effect_scope with effect.

Notation "x <- m ;; k" := (bind m (fun x => k))
  (at level 61, m at next level, right associativity) : effect_scope.
Notation "m ;; k" := (bind m (fun _ => k))
  (at level 61, right associativity) : effect_scope.

End Effect.

(** ** JavaScript numbers

    A number is the rational it denotes.  What is modelled of double
    precision is the rounding of a quotient or a product to the nearest
    double, ties to even.  The exponent is not bounded: below the normal
    range a result keeps 53 significant bits where a double has fewer, which
    leaves its integer part, zero, as it is. *)

Module JSNumber.

(** [String(n)] and [`${n}`] for an integer [n] of magnitude below 10^21:
    the decimal digits, after a minus sign when [n] is negative. *)
Definition toString (n : Z) : string :=
  NilZero.string_of_int (Z.to_int n).

(** The integer nearest to [a / b] for [b > 0], the even one of the two
    when [a / b] lies half way. *)
Definition round_half_even (a b : Z) : Z :=
  let f := (a / b)%Z in
  match (2 * (a mod b) ?= b)%Z with
  | Lt => f
  | Gt => (f + 1)%Z
  | Eq => if Z.even f then f else (f + 1)%Z
  end.

(** The binary exponent of a positive [x]: the [e] with
    [2^e <= x < 2^(e+1)]. *)
Definition exponent (x : Q) : Z :=
  if Qle_bool 1 x then Z.log2 (Qfloor x)
  else (- Z.log2_up (Qceiling (/ x)))%Z.

(** The double nearest to a positive [x]: [x] is scaled into
    [2^52 <= y < 2^53], rounded to an integer and scaled back. *)
Definition round_positive (x : Q) : Q :=
  let e := (exponent x - 52)%Z in
  let y := (x / 2 ^ e)%Q in
  (inject_Z (round_half_even (Qnum y) (Zpos (Qden y))) * 2 ^ e)%Q.

Definition round (x : Q) : Q :=
  match (x ?= 0)%Q with
  | Eq => 0%Q
  | Gt => round_positive x
  | Lt => (- round_positive (- x))%Q
  end.

(** [a / b] and [a * b] on doubles. *)
Definition div (a b : Q) : Q := round (a / b)%Q.
Definition mul (a b : Q) : Q := round (a * b)%Q.

(** The rationals that are doubles: those that rounding leaves alone. *)
Definition is_double (x : Q) : Prop := (round x == x)%Q.

(** [Number.isInteger]. *)
Definition isInteger (x : Q) : bool := Qeq_bool (inject_Z (Qfloor x)) x.

(** [x.toFixed(1)] for [0 <= x < 10^21]: with [n] the integer for which
    [n / 10 - x] is closest to zero, the larger one of two, the digits of
    [n] with a point before the last one. *)
Definition toFixed1 (x : Q) : string :=
  let n := Qfloor (x * 10 + (1 # 2))%Q in
  (toString (n / 10) ++ "." ++ toString (n mod 10))%string.

End JSNumber.

(** ** src/lib/utils.ts *)

Module Utils.

(** The source of randomness behind [Math.random]: an unbounded supply of
    draws and the position of the next one. *)
Record Rng : Type := mkRng {
  draws : nat -> Q;
  cursor : nat
}.

(** [Math.random()]: hands out the next draw. *)
Definition Math_random (g : Rng) : Q * Rng :=
  (draws g (cursor g), mkRng (draws g) (S (cursor g))).

(** [Math.floor]. *)
Definition Math_floor (x : Q) : Z := Qfloor x.

(** What [Math.random] promises: every draw is a double in the half-open
    interval [0, 1). *)
Definition unit_interval (g : Rng) : Prop :=
  forall n,
    JSNumber.is_double (draws g n)
    /\ (0 <= draws g n)%Q /\ (draws g n < 1)%Q.

Definition characters : string :=
  "ABCDEFGHIJKLMNOPQRSTUVWXYZabcdefghijklmnopqrstuvwxyz0123456789_-$".

(** The body of the [for] loop of [createRandomString], from the value
    [i] of the loop counter on.  [fuel] bounds the number of iterations
    still allowed. *)
Fixpoint createRandomString_loop (fuel : nat) (length i : Z)
         (result : string) (g : Rng) : string * Rng :=
  match fuel with
  | O => (result, g)
  | S fuel' =>
      if (i <? length)%Z then
        let (r, g') := Math_random g in
        let k := Math_floor
                   (JSNumber.mul r (inject_Z (JS.length characters))) in
        createRandomString_loop fuel' length (i + 1)
          (result ++ JS.charAt characters k) g'
      else (result, g)
  end.

(** [createRandomString(length)] for an integer [length].  The loop runs
    while [i < length], so [Z.to_nat length] iterations suffice. *)
Definition createRandomString (length : Z) (g : Rng) : string * Rng :=
  createRandomString_loop (Z.to_nat length) length 0 "" g.

(** The alphabet the specification describes: ASCII letters, digits,
    underscore, hyphen and dollar sign. *)
Definition is_upper (c : ascii) : bool :=
  let n := nat_of_ascii c in (65 <=? n)%nat && (n <=? 90)%nat.
Definition is_lower (c : ascii) : bool :=
  let n := nat_of_ascii c in (97 <=? n)%nat && (n <=? 122)%nat.
Definition is_digit (c : ascii) : bool :=
  let n := nat_of_ascii c in (48 <=? n)%nat && (n <=? 57)%nat.
Definition in_alphabet (c : ascii) : bool :=
  is_upper c || is_lower c || is_digit c
  || Ascii.eqb c "_" || Ascii.eqb c "-" || Ascii.eqb c "$".

(** Membership of a character in a string. *)
Fixpoint occurs (c : ascii) (s : string) : bool :=
  match s with
  | EmptyString => false
  | String d s' => Ascii.eqb c d || occurs c s'
  end.

(** Every character of [s] satisfies [p]. *)
Fixpoint all_chars (p : ascii -> bool) (s : string) : bool :=
  match s with
  | EmptyString => true
  | String c s' => p c && all_chars p s'
  end.

(** [formatDuration(duration)] for an integer number of milliseconds, as
    [search] passes it. *)
Definition formatDuration (duration : Z) : string :=
  if (duration <? 1000)%Z then
    (JSNumber.toString duration ++ "ms")%string
  else
    let seconds := JSNumber.div (inject_Z duration) 1000 in
    if JSNumber.isInteger seconds then
      (JSNumber.toString (Qfloor seconds) ++ "s")%string
    else (JSNumber.toFixed1 seconds ++ "s")%string.

(** *** sendBeacon *)

(** [navigator], in a host that has one; [has_sendBeacon] tells whether
    [navigator.sendBeacon] is defined. *)
Record Navigator : Type := mkNavigator {
  has_sendBeacon : bool
}.

(** The second argument of [fetch]. *)
Record FetchInit : Type := mkFetchInit {
  fetch_method : string;
  fetch_body : option string;
  fetch_headers : list (string * string)
}.

(** The calls [sendBeacon] makes to the host, in order, each with its
    arguments: [navigator.sendBeacon], [fetch] and [console.log]. *)
Inductive Transmission : Type :=
| BeaconQueued (endpoint : string) (body : option string)
| Fetched (endpoint : string) (init : FetchInit)
| ConsoleLogged (e : JS.Exception).

Section SendBeacon.
Import Effect.

Local Open Scope effect_scope.

(** The host: its [navigator], if any, and what its functions do when
    they are called.  [navigator.sendBeacon(endpoint, body)] returns a
    boolean or throws.  [fetch(endpoint, init)] throws, as it does in a
    host that has no [fetch], or returns a promise, fulfilled ([None]) or
    rejected with [e] ([Some e]). *)
Variable navigator : option Navigator.
Variable beacon_returns : string -> option string -> Completion bool.
Variable fetch_settles :
  string -> FetchInit -> Completion (option JS.Exception).

(** [fetch(endpoint, init).then(() => {}, (e) => console.log(e))]. *)
Definition fetch_quietly (endpoint : string) (init : FetchInit)
  : Effect.M (list Transmission) unit :=
  Effect.modify (fun log => log ++ [Fetched endpoint init]) ;;
  settled <- Effect.lift (fetch_settles endpoint init) ;;
  match settled with
  | None => Effect.ret tt
  | Some e => Effect.modify (fun log => log ++ [ConsoleLogged e])
  end.

(** [sendBeacon(endpoint, body)].  Nothing is caught: what a call to the
    host throws, [sendBeacon] throws. *)
Definition sendBeacon (endpoint : string) (body : option string)
  : Effect.M (list Transmission) JS.value :=
  match navigator with
  | Some nav =>
      (if has_sendBeacon nav then
         Effect.modify (fun log => log ++ [BeaconQueued endpoint body]) ;;
         _ <- Effect.lift (beacon_returns endpoint body) ;;
         Effect.ret tt
       else Effect.ret tt) ;;
      Effect.ret JS.VUndefined
  | None =>
      fetch_quietly endpoint
        (mkFetchInit "POST" body [("Content-Type", "application/json")]) ;;
      Effect.ret JS.VUndefined
  end.

End SendBeacon.

(** Whether a call of [sendBeacon] to the host is one that puts the
    payload on the wire. *)
Definition transmits (t : Transmission) : bool :=
  match t with
  | BeaconQueued _ _ | Fetched _ _ => true
  | ConsoleLogged _ => false
  end.

(** *** throttle and debounce

    The functions [throttle] and [debounce] return are followed through
    the calls made to them and the timers the host fires.  Time is in
    milliseconds since the function was made.  The host runs a timer no
    earlier than it is due, and time does not go back: an event that
    breaks either rule has no successor state.  [Args] stands for the
    receiver and the arguments of a call, and an invocation of [func] is
    recorded with its time.  [throttled] is the throttled function for any
    [func], one that throws or calls the throttled function back included;
    [throttle_step] and [debounce_step] follow a [func] that returns
    without calling back. *)

Inductive TimerEvent (Args : Type) : Type :=
| Called (at_time : Z) (args : Args)
| Fired (at_time : Z) (timer : nat).

Arguments Called {Args} at_time args.
Arguments Fired {Args} at_time timer.

(** The longest delay a host waits for: 2^31 - 1 ms. *)
Definition TIMEOUT_MAX : Z := 2147483647.

(** The earliest time at which the host may run a timer set at [now] with
    [setTimeout(f, delay)].  A delay from 0 to [TIMEOUT_MAX] is waited
    for.  Outside of that range hosts differ, Node waits 1 ms and a
    browser reduces the delay to a signed 32-bit integer and takes a
    negative one for zero: the timer may run at once. *)
Definition due_time (now delay : Z) : Z :=
  if (0 <=? delay)%Z && (delay <=? TIMEOUT_MAX)%Z then (now + delay)%Z
  else now.

(** [!x] on a flag that may still be [undefined]. *)
Definition flag_set (x : option bool) : bool :=
  match x with
  | Some true => true
  | _ => false
  end.

(** Consecutive times of a list, latest first, are at least [gap] apart. *)
Fixpoint spaced (gap : Z) (times : list Z) : Prop :=
  match times with
  | later :: (earlier :: _) as rest =>
      (earlier + gap <= later)%Z /\ spaced gap rest
  | _ => True
  end.

Section Throttle.

Variable Args : Type.
Variable limit : Z.

(** The closure [throttle(func, limit)] returns: its variable
    [inThrottle], the timers it has pending with the host, each with its
    identifier and due time, and the invocations of [func] so far, latest
    first, with their time and arguments. *)
Record Throttle : Type := mkThrottle {
  inThrottle : option bool;
  throttle_timers : list (nat * Z);
  throttle_nextTimer : nat;
  throttle_clock : Z;
  throttle_invoked : list (Z * Args)
}.

(** [throttle(func, limit)]. *)
Definition throttle : Throttle := mkThrottle None [] 0 0 [].

Fixpoint pending (id : nat) (timers : list (nat * Z)) : option Z :=
  match timers with
  | [] => None
  | (id', due) :: rest => if Nat.eqb id id' then Some due else pending id rest
  end.

Fixpoint cancel (id : nat) (timers : list (nat * Z)) : list (nat * Z) :=
  match timers with
  | [] => []
  | (id', due) :: rest =>
      if Nat.eqb id id' then cancel id rest else (id', due) :: cancel id rest
  end.

(** A call of the throttled function of a [func] that returns without
    calling it back, or the host running the timer that resets
    [inThrottle]. *)
Definition throttle_step (ev : TimerEvent Args) (s : Throttle)
  : option Throttle :=
  match ev with
  | Called t args =>
      if (t <? throttle_clock s)%Z then None
      else if negb (flag_set (inThrottle s)) then
        Some (mkThrottle (Some true)
                (throttle_timers s
                 ++ [(throttle_nextTimer s, due_time t limit)])
                (S (throttle_nextTimer s)) t
                ((t, args) :: throttle_invoked s))
      else
        Some (mkThrottle (inThrottle s) (throttle_timers s)
                (throttle_nextTimer s) t (throttle_invoked s))
  | Fired t id =>
      match pending id (throttle_timers s) with
      | Some due =>
          if (t <? throttle_clock s)%Z || (t <? due)%Z then None
          else Some (mkThrottle (Some false) (cancel id (throttle_timers s))
                       (throttle_nextTimer s) t (throttle_invoked s))
      | None => None
      end
  end.

Fixpoint throttle_run (evs : list (TimerEvent Args)) (s : Throttle)
  : option Throttle :=
  match evs with
  | [] => Some s
  | ev :: rest =>
      match throttle_step ev s with
      | Some s' => throttle_run rest s'
      | None => None
      end
  end.

End Throttle.

Arguments inThrottle {Args} _.
Arguments throttle_timers {Args} _.
Arguments throttle_nextTimer {Args} _.
Arguments throttle_clock {Args} _.
Arguments throttle_invoked {Args} _.
Arguments throttle_step {Args} limit ev s.
Arguments throttle_run {Args} limit evs s.

Section Throttled.
Import Effect.

Local Open Scope effect_scope.

Variable Args : Type.
Variable limit : Z.

(** [func], as what a call of it does to the closure of the throttled
    function: it returns or throws, and before that it may call the
    throttled function back, which is the one way it has to change the
    closure. *)
Variable func : Args -> Effect.M (Throttle Args) unit.

(** [func.apply(this, args)]. *)
Definition apply_func (args : Args) : Effect.M (Throttle Args) unit :=
  Effect.modify (fun s =>
    mkThrottle Args (inThrottle s) (throttle_timers s)
      (throttle_nextTimer s) (throttle_clock s)
      ((throttle_clock s, args) :: throttle_invoked s)) ;;
  func args.

(** [setTimeout(() => (inThrottle = false), limit)]. *)
Definition setTimeout_reset : Effect.M (Throttle Args) unit :=
  Effect.modify (fun s =>
    mkThrottle Args (inThrottle s)
      (throttle_timers s
       ++ [(throttle_nextTimer s, due_time (throttle_clock s) limit)])
      (S (throttle_nextTimer s)) (throttle_clock s) (throttle_invoked s)).

(** The function [throttle(func, limit)] returns, called with [args]:
    [inThrottle] is set, and the timer started, after [func] has returned,
    and not at all when [func] throws. *)
Definition throttled (args : Args) : Effect.M (Throttle Args) unit :=
  s <- Effect.get ;;
  if negb (flag_set (inThrottle s)) then
    apply_func args ;;
    Effect.modify (fun s =>
      mkThrottle Args (Some true) (throttle_timers s)
        (throttle_nextTimer s) (throttle_clock s) (throttle_invoked s)) ;;
    setTimeout_reset
  else Effect.ret tt.

(** A call of the throttled function from outside at the time [t], with
    what it leaves behind whether it returns or throws, or the host
    running a timer. *)
Definition throttled_step (ev : TimerEvent Args) (s : Throttle Args)
  : option (Throttle Args) :=
  match ev with
  | Called t args =>
      if (t <? throttle_clock s)%Z then None
      else
        Some (snd (throttled args
                     (mkThrottle Args (inThrottle s) (throttle_timers s)
                        (throttle_nextTimer s) t (throttle_invoked s))))
  | Fired t id => throttle_step limit (Fired t id) s
  end.

Fixpoint throttled_run (evs : list (TimerEvent Args)) (s : Throttle Args)
  : option (Throttle Args) :=
  match evs with
  | [] => Some s
  | ev :: rest =>
      match throttled_step ev s with
      | Some s' => throttled_run rest s'
      | None => None
      end
  end.

(** A [func] that returns and does not call the throttled function
    back. *)
Definition returns_plainly : Prop :=
  forall (args : Args) (s : Throttle Args), func args s = (Return tt, s).

End Throttled.

Arguments apply_func {Args} func args.
Arguments setTimeout_reset {Args} limit.
Arguments throttled {Args} limit func args.
Arguments throttled_step {Args} limit func ev s.
Arguments throttled_run {Args} limit func evs s.
Arguments returns_plainly {Args} func.

Section Debounce.

Variable Args : Type.
Variable delay : Z.

(** The closure [debounce(func, delay)] returns: its variable
    [debounceTimer], the timers pending with the host, each with its
    identifier, its due time and the arguments its callback passes on, and
    the invocations of [func] so far, latest first. *)
Record Debounce : Type := mkDebounce {
  debounceTimer : option nat;
  debounce_timers : list (nat * (Z * Args));
  debounce_nextTimer : nat;
  debounce_clock : Z;
  debounce_invoked : list (Z * Args)
}.

(** [debounce(func, delay)]. *)
Definition debounce : Debounce := mkDebounce None [] 0 0 [].

Fixpoint lookup_timer (id : nat) (timers : list (nat * (Z * Args)))
  : option (Z * Args) :=
  match timers with
  | [] => None
  | (id', entry) :: rest =>
      if Nat.eqb id id' then Some entry else lookup_timer id rest
  end.

Fixpoint remove_timer (id : nat) (timers : list (nat * (Z * Args)))
  : list (nat * (Z * Args)) :=
  match timers with
  | [] => []
  | (id', entry) :: rest =>
      if Nat.eqb id id' then remove_timer id rest
      else (id', entry) :: remove_timer id rest
  end.

(** [clearTimeout(id)]; nothing happens for [undefined]. *)
Definition clearTimeout (id : option nat)
  (timers : list (nat * (Z * Args))) : list (nat * (Z * Args)) :=
  match id with
  | Some id => remove_timer id timers
  | None => timers
  end.

(** A call of the debounced function, or the host running a timer. *)
Definition debounce_step (ev : TimerEvent Args) (s : Debounce)
  : option Debounce :=
  match ev with
  | Called t args =>
      if (t <? debounce_clock s)%Z then None
      else
        Some (mkDebounce (Some (debounce_nextTimer s))
                (clearTimeout (debounceTimer s) (debounce_timers s)
                 ++ [(debounce_nextTimer s, (due_time t delay, args))])
                (S (debounce_nextTimer s)) t (debounce_invoked s))
  | Fired t id =>
      match lookup_timer id (debounce_timers s) with
      | Some (due, args) =>
          if (t <? debounce_clock s)%Z || (t <? due)%Z then None
          else Some (mkDebounce (debounceTimer s)
                       (remove_timer id (debounce_timers s))
                       (debounce_nextTimer s) t
                       ((t, args) :: debounce_invoked s))
      | None => None
      end
  end.

Fixpoint debounce_run (evs : list (TimerEvent Args)) (s : Debounce)
  : option Debounce :=
  match evs with
  | [] => Some s
  | ev :: rest =>
      match debounce_step ev s with
      | Some s' => debounce_run rest s'
      | None => None
      end
  end.

(** The latest call of a trace, [before] when the trace has none. *)
Fixpoint last_call (evs : list (TimerEvent Args)) (before : option (Z * Args))
  : option (Z * Args) :=
  match evs with
  | [] => before
  | Called t args :: rest => last_call rest (Some (t, args))
  | Fired _ _ :: rest => last_call rest before
  end.

End Debounce.

Arguments debounceTimer {Args} _.
Arguments debounce_timers {Args} _.
Arguments debounce_nextTimer {Args} _.
Arguments debounce_clock {Args} _.
Arguments debounce_invoked {Args} _.
Arguments lookup_timer {Args} id timers.
Arguments remove_timer {Args} id timers.
Arguments clearTimeout {Args} id timers.
Arguments debounce_step {Args} delay ev s.
Arguments debounce_run {Args} delay evs s.
Arguments last_call {Args} evs before.

End Utils.

(** ** The answer session (answer-session.ts)

    The file that implements the session is not among the sources at hand:
    only its importers are.  The session is therefore modelled from the
    specification, sentence by sentence. *)

Module Session.
Import Effect.

(** Modelled from the spec: the [Message] of answer-session.ts, one turn of
    raw conversational content. *)
Inductive Role : Type := user | assistant | system.

Record Message : Type := mkMessage {
  role : Role;
  content : string
}.

(** Modelled from the spec: the [state] of an [Interaction] of
    answer-session.ts, one of pending, streaming, done, error. *)
Inductive InteractionState : Type := pending | streaming | done | error.

Definition terminal (st : InteractionState) : bool :=
  match st with
  | done | error => true
  | pending | streaming => false
  end.

(** The position of a state in the order pending, streaming, done/error. *)
Definition rank (st : InteractionState) : nat :=
  match st with
  | pending => 0
  | streaming => 1
  | done | error => 2
  end.

(** Modelled from the spec: the step descriptors of a [PlanExecution] of
    answer-session.ts, with their kind, status, result payload and the
    flag that makes a step required. *)
Inductive StepKind : Type :=
| retrieval
| tool_call
| generation
| other_kind (name : string).

Inductive StepStatus : Type :=
| step_pending
| step_running
| step_done
| step_failed
| step_skipped.

Definition step_terminal (st : StepStatus) : bool :=
  match st with
  | step_done | step_failed | step_skipped => true
  | step_pending | step_running => false
  end.

Record Step : Type := mkStep {
  kind : StepKind;
  status : StepStatus;
  result : option string;
  required : bool;
  arguments : string
}.

(** A step as the server declares it, before the client has run it. *)
Record StepDescriptor : Type := mkStepDescriptor {
  declared_kind : StepKind;
  declared_required : bool;
  declared_arguments : string
}.

(** Modelled from the spec: the [PlanExecution] of answer-session.ts, the
    declared steps and the pointer to the current one. *)
Record PlanExecution : Type := mkPlan {
  steps : list Step;
  currentStepIndex : nat
}.

(** Modelled from the spec: the [Interaction] of answer-session.ts, one
    question/answer exchange. *)
Record Interaction : Type := mkInteraction {
  id : nat;
  query : string;
  response : string;
  sources : option (list JS.value);
  state : InteractionState;
  plan : option PlanExecution;
  aborted : bool
}.

(** [LLMConfig], declared in collection.ts. *)
Inductive Provider : Type := openai | fireworks | together.

Record LLMConfig : Type := mkLLMConfig {
  provider : Provider;
  model : string
}.

(** Modelled from the spec: the construction parameters of the
    [AnswerSession] of answer-session.ts.  [events] tells whether the
    caller registered a state-change listener. *)
Record AnswerSessionConfig : Type := mkAnswerSessionConfig {
  url : string;
  readAPIKey : string;
  collectionID : string;
  config_LLMConfig : option LLMConfig;
  initialMessages : option (list Message);
  events : bool
}.

(** Modelled from the spec: the state of an [AnswerSession] of
    answer-session.ts: its configuration, the Interaction Store, the asks
    queued behind the active Interaction, the optional cancellation handle
    of the request in flight, and the snapshots delivered to the listener
    so far, oldest first. *)
Record AnswerSession : Type := mkSession {
  config : AnswerSessionConfig;
  messages : list Message;
  interactions : list Interaction;
  queue : list string;
  activeHandle : option nat;
  nextId : nat;
  notifications : list (list Interaction)
}.

(** *** Field updates *)

Definition set_status (v : StepStatus) (st : Step) : Step :=
  mkStep (kind st) v (result st) (required st) (arguments st).

Definition set_result (v : option string) (st : Step) : Step :=
  mkStep (kind st) (status st) v (required st) (arguments st).

Definition set_response (v : string) (i : Interaction) : Interaction :=
  mkInteraction (id i) (query i) v (sources i) (state i) (plan i) (aborted i).

Definition set_sources (v : option (list JS.value)) (i : Interaction)
  : Interaction :=
  mkInteraction (id i) (query i) (response i) v (state i) (plan i) (aborted i).

Definition set_state (v : InteractionState) (i : Interaction) : Interaction :=
  mkInteraction (id i) (query i) (response i) (sources i) v (plan i)
    (aborted i).

Definition set_plan (v : option PlanExecution) (i : Interaction)
  : Interaction :=
  mkInteraction (id i) (query i) (response i) (sources i) (state i) v
    (aborted i).

Definition set_aborted (v : bool) (i : Interaction) : Interaction :=
  mkInteraction (id i) (query i) (response i) (sources i) (state i) (plan i) v.

Definition set_interactions (v : list Interaction) (s : AnswerSession)
  : AnswerSession :=
  mkSession (config s) (messages s) v (queue s) (activeHandle s) (nextId s)
    (notifications s).

Definition set_queue (v : list string) (s : AnswerSession) : AnswerSession :=
  mkSession (config s) (messages s) (interactions s) v (activeHandle s)
    (nextId s) (notifications s).

Definition set_activeHandle (v : option nat) (s : AnswerSession)
  : AnswerSession :=
  mkSession (config s) (messages s) (interactions s) (queue s) v (nextId s)
    (notifications s).

Definition set_nextId (v : nat) (s : AnswerSession) : AnswerSession :=
  mkSession (config s) (messages s) (interactions s) (queue s)
    (activeHandle s) v (notifications s).

Definition set_notifications (v : list (list Interaction))
  (s : AnswerSession) : AnswerSession :=
  mkSession (config s) (messages s) (interactions s) (queue s)
    (activeHandle s) (nextId s) v.

(** *** The Interaction Store: append, and mutation of the last element *)

Fixpoint last_opt {A : Type} (l : list A) : option A :=
  match l with
  | [] => None
  | x :: rest =>
      match rest with
      | [] => Some x
      | _ :: _ => last_opt rest
      end
  end.

Fixpoint update_last {A : Type} (f : A -> A) (l : list A) : list A :=
  match l with
  | [] => []
  | x :: rest =>
      match rest with
      | [] => [f x]
      | _ :: _ => x :: update_last f rest
      end
  end.

(** [l] with its element at index [n] replaced; [l] itself when [n] is out
    of range. *)
Fixpoint set_nth {A : Type} (n : nat) (x : A) (l : list A) : list A :=
  match l, n with
  | [], _ => []
  | _ :: rest, O => x :: rest
  | y :: rest, S n' => y :: set_nth n' x rest
  end.

(** *** Construction *)

(** Modelled from the spec: the constructor of the [AnswerSession] of
    answer-session.ts.  The read credential is mandatory: its absence
    fails session creation with [ConfigurationError].  The store starts
    empty, the history is seeded with the prior messages, if any. *)
Definition newAnswerSession (cfg : AnswerSessionConfig)
  : Completion AnswerSession :=
  if (readAPIKey cfg =? "")%string then Throw JS.ConfigurationError
  else Return (mkSession cfg
                 (match initialMessages cfg with
                  | Some seed => seed
                  | None => []
                  end)
                 [] [] None 0 []).

(** *** Operations of the session *)

Section Operations.

Local Open Scope effect_scope.

(** Modelled from the spec: the parser of answer-session.ts that turns the
    serialized arguments of a tool call into structured form; [None] is a
    parse failure. *)
Variable parseArguments : string -> option JS.value.

(** Modelled from the spec: the state-change notification of
    answer-session.ts.  The listener, when there is one, receives the full
    current sequence of Interactions. *)
Definition notify : M AnswerSession unit :=
  modify (fun s =>
    set_notifications
      (if events (config s) then notifications s ++ [interactions s]
       else notifications s)
      s).

(** Modelled from the spec: the Interaction Store of answer-session.ts is
    mutated in place, on its last element only. *)
Definition mutateLast (f : Interaction -> Interaction)
  : M AnswerSession unit :=
  modify (fun s => set_interactions (update_last f (interactions s)) s).

(** Modelled from the spec: the session of answer-session.ts releasing the
    request in flight. *)
Definition release : M AnswerSession unit :=
  modify (set_activeHandle None).

(** Modelled from the spec: an [Interaction] of answer-session.ts as it is
    created: pending, with an empty response, no sources and no plan. *)
Definition freshInteraction (n : nat) (q : string) : Interaction :=
  mkInteraction n q "" None pending None false.

(** Modelled from the spec: the first effect of [ask] of answer-session.ts.
    Creates the Interaction of an ask in state pending and appends it to
    the store; the listener is notified of the creation. *)
Definition createInteraction (q : string) : M AnswerSession unit :=
  modify (fun s =>
    set_nextId (S (nextId s))
      (set_interactions (interactions s ++ [freshInteraction (nextId s) q])
         s)) ;;
  notify.

(** Modelled from the spec: the second effect of [ask] of
    answer-session.ts.  Moves the Interaction just created to streaming and
    begins its request: the session now holds the cancellation handle of
    that request. *)
Definition beginStreaming : M AnswerSession unit :=
  mutateLast (set_state streaming) ;;
  modify (fun s =>
    set_activeHandle (option_map id (last_opt (interactions s))) s).

(** Modelled from the spec: the effects of an [ask] of answer-session.ts
    that is not queued. *)
Definition startAsk (q : string) : M AnswerSession unit :=
  createInteraction q ;; beginStreaming.

(** Modelled from the spec: [ask] of answer-session.ts.  Misuse (missing
    credential, empty query) is reported synchronously; while another
    Interaction is still non-terminal the ask is queued behind it. *)
Definition ask (q : string) : M AnswerSession unit :=
  s <- get ;;
  if (readAPIKey (config s) =? "")%string then throw JS.ConfigurationError
  else if (q =? "")%string then throw JS.InvalidStateError
  else match activeHandle s with
       | Some _ => modify (fun s => set_queue (queue s ++ [q]) s)
       | None => startAsk q
       end.

(** Modelled from the spec: [abort] of answer-session.ts.  Cancels the
    active Interaction, if any: sets [aborted], moves it to done with the
    response accumulated so far, and releases the request in flight. *)
Definition abort : M AnswerSession unit :=
  s <- get ;;
  match activeHandle s with
  | None => ret tt
  | Some _ =>
      mutateLast (fun i => set_state done (set_aborted true i)) ;;
      release ;;
      notify
  end.

(** Modelled from the spec: [regenerateLast] of answer-session.ts: the
    contract of [ask] on the most recent query, [InvalidStateError] on an
    empty store. *)
Definition regenerateLast : M AnswerSession unit :=
  s <- get ;;
  match last_opt (interactions s) with
  | None => throw JS.InvalidStateError
  | Some i => ask (query i)
  end.

(** Modelled from the spec: [getInteractions] of answer-session.ts. *)
Definition getInteractions : M AnswerSession (list Interaction) :=
  s <- get ;; ret (interactions s).

(** Modelled from the spec: the FIFO queue of asks of answer-session.ts.
    The scheduler starts the ask at the head of the queue once no
    Interaction is active.  It is a step of its own: the session is
    single-threaded and cooperative, so the operation that made the active
    Interaction terminal returns before the next ask begins. *)
Definition startQueued : M AnswerSession unit :=
  s <- get ;;
  match activeHandle s, queue s with
  | None, q :: rest => modify (set_queue rest) ;; startAsk q
  | _, _ => ret tt
  end.

(** *** What the transport delivers

    A delivery is applied only while a request is in flight; what arrives
    after the request was released is dropped. *)

(** Modelled from the spec: the stream listener of answer-session.ts lives
    as long as its request. *)
Definition whenInFlight (m : M AnswerSession unit) : M AnswerSession unit :=
  s <- get ;;
  match activeHandle s with
  | Some _ => m
  | None => ret tt
  end.

(** Modelled from the spec: the stream listener of answer-session.ts.  A
    response fragment is appended to [response], and the listener is
    notified. *)
Definition onFragment (text : string) : M AnswerSession unit :=
  whenInFlight
    (mutateLast (fun i => set_response (response i ++ text) i) ;; notify).

(** Modelled from the spec: the stream listener of answer-session.ts on
    the retrieved documents: [sources] is populated once available. *)
Definition onSources (docs : list JS.value) : M AnswerSession unit :=
  whenInFlight (mutateLast (set_sources (Some docs))).

(** Modelled from the spec: the stream listener of answer-session.ts on
    the normal end of the stream: the Interaction is done. *)
Definition onStreamEnd : M AnswerSession unit :=
  whenInFlight (mutateLast (set_state done) ;; release ;; notify).

(** Modelled from the spec: the failure semantics of answer-session.ts.
    The transport failed: the Interaction moves to error, its response is
    left as accumulated. *)
Definition onTransportFailure : M AnswerSession unit :=
  whenInFlight (mutateLast (set_state error) ;; release ;; notify).

(** *** The plan executor *)

(** Modelled from the spec: the [PlanExecution] of answer-session.ts as a
    plan descriptor declares it: every step pending, the pointer on the
    first one. *)
Definition declareStep (d : StepDescriptor) : Step :=
  mkStep (declared_kind d) step_pending None (declared_required d)
    (declared_arguments d).

Definition declarePlan (descriptor : list StepDescriptor) : PlanExecution :=
  mkPlan (map declareStep descriptor) 0.

(** Modelled from the spec: the stream listener of answer-session.ts on a
    fragment that declares a plan in place of direct answer text. *)
Definition onPlan (descriptor : list StepDescriptor)
  : M AnswerSession unit :=
  whenInFlight
    (mutateLast (fun i =>
       match plan i with
       | None => set_plan (Some (declarePlan descriptor)) i
       | Some _ => i
       end)).

(** Modelled from the spec: how the work of a step of a plan of
    answer-session.ts ended. *)
Inductive StepOutcome : Type :=
| Succeeded (payload : string)
| Failed.

(** Modelled from the spec: the tool-call steps of the Plan Executor of
    answer-session.ts.  The arguments of a tool call are parsed before the
    invocation; a parse failure fails the step whatever the invocation
    would have given. *)
Definition effectiveOutcome (st : Step) (o : StepOutcome) : StepOutcome :=
  match kind st with
  | tool_call =>
      match parseArguments (arguments st) with
      | Some _ => o
      | None => Failed
      end
  | _ => o
  end.

Definition resolveStep (st : Step) (o : StepOutcome) : Step :=
  match effectiveOutcome st o with
  | Succeeded payload => set_result (Some payload) (set_status step_done st)
  | Failed => set_status step_failed st
  end.

(** Modelled from the spec: the Plan Executor of answer-session.ts
    starting the current step. *)
Definition startStep (p : PlanExecution) : PlanExecution :=
  match nth_error (steps p) (currentStepIndex p) with
  | Some st =>
      match status st with
      | step_pending =>
          mkPlan (set_nth (currentStepIndex p) (set_status step_running st)
                    (steps p))
            (currentStepIndex p)
      | _ => p
      end
  | None => p
  end.

Inductive Verdict : Type := PlanContinues | PlanCompleted | PlanAborted.

(** Modelled from the spec: one step of [run] of the Plan Executor of
    answer-session.ts.  The current step is resolved with its outcome.  A
    failed required step aborts the plan and the pointer stays on it;
    otherwise the pointer advances, a failed step counting as skipped;
    the plan is complete once the pointer has passed the last step. *)
Definition runStep (p : PlanExecution) (o : StepOutcome)
  : option (PlanExecution * Verdict) :=
  match nth_error (steps p) (currentStepIndex p) with
  | None => None
  | Some st =>
      let st' := resolveStep st o in
      let steps' := set_nth (currentStepIndex p) st' (steps p) in
      match status st', required st with
      | step_failed, true => Some (mkPlan steps' (currentStepIndex p), PlanAborted)
      | _, _ =>
          let next := S (currentStepIndex p) in
          Some (mkPlan steps' next,
                if (next =? List.length steps')%nat then PlanCompleted
                else PlanContinues)
      end
  end.

(** Modelled from the spec: the final response text the Plan Executor of
    answer-session.ts synthesizes: the output of the generation steps that
    are done, in step order. *)
Fixpoint generationOutput (l : list Step) : string :=
  match l with
  | [] => ""
  | st :: rest =>
      match kind st, status st, result st with
      | generation, step_done, Some text => text ++ generationOutput rest
      | _, _, _ => generationOutput rest
      end
  end.

(** Modelled from the spec: the Plan Executor of answer-session.ts
    reporting that the current step runs. *)
Definition onStepStart : M AnswerSession unit :=
  whenInFlight
    (mutateLast (fun i =>
       match plan i with
       | Some p => set_plan (Some (startStep p)) i
       | None => i
       end) ;;
     notify).

(** Modelled from the spec: the Plan Executor of answer-session.ts feeding
    a step result back into the owning Interaction.  On normal completion
    the generation output becomes the response and the Interaction is
    done; an aborted plan moves it to error. *)
Definition onStepResult (o : StepOutcome) : M AnswerSession unit :=
  whenInFlight
    (s <- get ;;
     match last_opt (interactions s) with
     | None => ret tt
     | Some i =>
         match plan i with
         | None => ret tt
         | Some p =>
             match runStep p o with
             | None => ret tt
             | Some (p', PlanAborted) =>
                 mutateLast (fun i => set_state error (set_plan (Some p') i)) ;;
                 release ;;
                 notify
             | Some (p', PlanContinues) =>
                 mutateLast (set_plan (Some p')) ;;
                 notify
             | Some (p', PlanCompleted) =>
                 mutateLast (set_plan (Some p')) ;;
                 notify ;;
                 mutateLast (fun i =>
                   set_state done
                     (set_response
                        (response i ++ generationOutput (steps p')) i)) ;;
                 release ;;
                 notify
             end
         end
     end).

(** *** The session as a state machine *)

(** Modelled from the spec: what can happen to a session of
    answer-session.ts: the calls of the caller, the turn of the scheduler,
    and the deliveries of the transport and of the plan executor. *)
Inductive Event : Type :=
| Ask (q : string)
| Abort
| RegenerateLast
| StartQueued
| FragmentArrived (text : string)
| SourcesArrived (docs : list JS.value)
| PlanDeclared (descriptor : list StepDescriptor)
| StepStarted
| StepResolved (o : StepOutcome)
| StreamEnded
| TransportFailed.

Definition dispatch (ev : Event) : M AnswerSession unit :=
  match ev with
  | Ask q => ask q
  | Abort => abort
  | RegenerateLast => regenerateLast
  | StartQueued => startQueued
  | FragmentArrived text => onFragment text
  | SourcesArrived docs => onSources docs
  | PlanDeclared descriptor => onPlan descriptor
  | StepStarted => onStepStart
  | StepResolved o => onStepResult o
  | StreamEnded => onStreamEnd
  | TransportFailed => onTransportFailure
  end.

(** Events that come from the transport and the plan executor, as opposed
    to the calls of the caller. *)
Definition fromTransport (ev : Event) : bool :=
  match ev with
  | Ask _ | Abort | RegenerateLast | StartQueued => false
  | _ => true
  end.

(** The session after a sequence of events; an exception reported to the
    caller leaves the session as the failed call left it. *)
Fixpoint run (evs : list Event) (s : AnswerSession) : AnswerSession :=
  match evs with
  | [] => s
  | ev :: rest => run rest (snd (dispatch ev s))
  end.

(** The sessions a caller can observe: a session as constructed, and any
    session an event leads to from one of them. *)
Inductive reachable : AnswerSession -> Prop :=
| reachable_new cfg s :
    newAnswerSession cfg = Return s -> reachable s
| reachable_step s ev :
    reachable s -> reachable (snd (dispatch ev s)).

End Operations.

(** *** Relations on sessions *)

(** A state may stay as it is or move to a later position in the order
    pending, streaming, done/error.  A terminal state has nowhere to go:
    done and error share the last position. *)
Definition state_forward (a b : InteractionState) : Prop :=
  a = b \/ rank a < rank b.

(** [new] still holds every Interaction of [old], at the same position,
    with the same identity and query, and in a state reached by forward
    moves only.  [new] may hold more Interactions after them. *)
Fixpoint forward (old new : list Interaction) : Prop :=
  match old, new with
  | [], _ => True
  | _ :: _, [] => False
  | a :: old', b :: new' =>
      id a = id b /\ query a = query b
      /\ state_forward (state a) (state b)
      /\ forward old' new'
  end.

Definition all_terminal (l : list Interaction) : Prop :=
  Forall (fun i => terminal (state i) = true) l.

(** What holds of every session a caller can observe: the credential is
    there, no query is empty, and the cancellation handle is held exactly
    while the last Interaction of the store is streaming, all the others
    being terminal. *)
Definition consistent (s : AnswerSession) : Prop :=
  readAPIKey (config s) <> ""
  /\ Forall (fun i => query i <> "") (interactions s)
  /\ Forall (fun q => q <> "") (queue s)
  /\ match activeHandle s with
     | None => all_terminal (interactions s)
     | Some h =>
         exists earlier current,
           interactions s = earlier ++ [current]
           /\ all_terminal earlier
           /\ id current = h
           /\ state current = streaming
     end.

(** The ways one event can change the store, the queue and the handle of
    a session. *)
Inductive transition (s s' : AnswerSession) : Prop :=
| transition_none :
    interactions s' = interactions s ->
    activeHandle s' = activeHandle s ->
    queue s' = queue s ->
    transition s s'
| transition_enqueue (q : string) :
    q <> "" ->
    interactions s' = interactions s ->
    activeHandle s' = activeHandle s ->
    queue s' = queue s ++ [q] ->
    transition s s'
| transition_start (q : string) :
    q <> "" ->
    activeHandle s = None ->
    interactions s'
    = interactions s ++ [set_state streaming (freshInteraction (nextId s) q)] ->
    activeHandle s' = Some (nextId s) ->
    queue s' = queue s \/ queue s = q :: queue s' ->
    transition s s'
| transition_progress (earlier : list Interaction) (current current' : Interaction) :
    interactions s = earlier ++ [current] ->
    interactions s' = earlier ++ [current'] ->
    id current' = id current ->
    query current' = query current ->
    state current' = state current ->
    activeHandle s <> None ->
    activeHandle s' = activeHandle s ->
    queue s' = queue s ->
    transition s s'
| transition_finish (earlier : list Interaction) (current current' : Interaction) :
    interactions s = earlier ++ [current] ->
    interactions s' = earlier ++ [current'] ->
    id current' = id current ->
    query current' = query current ->
    terminal (state current') = true ->
    activeHandle s <> None ->
    activeHandle s' = None ->
    queue s' = queue s ->
    transition s s'.


End Session.

(** ** src/collection.ts *)

Module Collection.
Import Effect.

Inductive Method : Type := GET | POST.

Inductive SecurityLevel : Type := read | write | read_query.

(** [InsertTriggerBody] is declared in lib/types.ts; of its fields the
    manager reads [segment_id] only, the others are kept as they come. *)
Record InsertTriggerBody : Type := mkInsertTriggerBody {
  segment_id : option string;
  trigger_fields : list (string * JS.value)
}.

(** What a request carries as its body. *)
Inductive Body : Type :=
| DocumentsBody (documents : JS.value)
| TriggerBody (trigger : InsertTriggerBody).

(** The argument of [oramaInterface.request]. *)
Record Request : Type := mkRequest {
  url : string;
  body : option Body;
  method : Method;
  securityLevel : SecurityLevel
}.

(** A promise, by the way it settles. *)
Inductive Promise (A : Type) : Type :=
| Fulfilled (a : A)
| Rejected (reason : JS.Exception).

Arguments Fulfilled {A} a.
Arguments Rejected {A} reason.

(** The requests handed to the HTTP collaborator so far, oldest first. *)
Definition Network : Type := list Request.

Record CollectionManagerConfig : Type := mkCollectionManagerConfig {
  config_url : string;
  config_collectionID : string;
  config_writeAPIKey : option string;
  config_readAPIKey : option string
}.

(** The arguments the manager builds its [OramaInterface] and its
    [Profile] from. *)
Record OramaInterfaceConfig : Type := mkOramaInterfaceConfig {
  baseURL : string;
  interface_writeAPIKey : option string;
  interface_readAPIKey : option string
}.

Record ProfileConfig : Type := mkProfileConfig {
  endpoint : string;
  apiKey : option string
}.

Record CollectionManager : Type := mkCollectionManager {
  this_url : string;
  this_collectionID : string;
  this_writeAPIKey : option string;
  this_readAPIKey : option string;
  oramaInterface : OramaInterfaceConfig;
  profile : ProfileConfig
}.

(** [new CollectionManager(config)]. *)
Definition newCollectionManager (config : CollectionManagerConfig)
  : CollectionManager :=
  mkCollectionManager
    (config_url config)
    (config_collectionID config)
    (config_writeAPIKey config)
    (config_readAPIKey config)
    (mkOramaInterfaceConfig (config_url config) (config_writeAPIKey config)
       (config_readAPIKey config))
    (mkProfileConfig (config_url config) (config_readAPIKey config)).

(** [CreateAnswerSessionConfig]; [events] tells whether an [onStateChange]
    listener comes with it. *)
Record CreateAnswerSessionConfig : Type := mkCreateAnswerSessionConfig {
  LLMConfig : option Session.LLMConfig;
  initialMessages : option (list Session.Message);
  events : bool
}.

Section Manager.

Local Open Scope effect_scope.

(** How the remote service settles a request. *)
Variable remote : Request -> Promise JS.value.

(** [oramaInterface.request(config)]: the request goes out and the promise
    of its response comes back. *)
Definition request (r : Request) : M Network (Promise JS.value) :=
  modify (fun log : Network => log ++ [r]) ;;
  ret (remote r).

(** [await p] at the end of an async function that returns nothing: the
    function's own promise settles as [p] does. *)
Definition await_void (p : Promise JS.value) : Promise unit :=
  match p with
  | Fulfilled _ => Fulfilled tt
  | Rejected reason => Rejected reason
  end.

(** [insert(documents)]. *)
Definition insert (this : CollectionManager) (documents : JS.value)
  : M Network (Promise unit) :=
  let documents :=
    if negb (JS.isArray documents) then JS.VArr [documents] else documents in
  p <- request
         (mkRequest
            ("/v1/collections/" ++ this_collectionID this ++ "/insert")
            (Some (DocumentsBody documents))
            POST
            write) ;;
  ret (await_void p).

(** [createAnswerSession(config)]. *)
Definition createAnswerSession (this : CollectionManager)
  (config : option CreateAnswerSessionConfig)
  : M Network Session.AnswerSession :=
  if negb (JS.truthy (this_readAPIKey this)) then
    throw (JS.Error "Read API key is required to create an answer session")
  else
    lift
      (Session.newAnswerSession
         (Session.mkAnswerSessionConfig
            (this_url this)
            (JS.or_else (this_readAPIKey this) "")
            (this_collectionID this)
            (match config with
             | Some c => LLMConfig c
             | None => None
             end)
            (match config with
             | Some c => initialMessages c
             | None => None
             end)
            (match config with
             | Some c => events c
             | None => false
             end))).

(** [insertTrigger(trigger)]. *)
Definition insertTrigger (this : CollectionManager)
  (trigger : InsertTriggerBody) : M Network (Promise JS.value) :=
  if negb (JS.truthy (segment_id trigger)) then
    throw (JS.Error "You cannot insert a trigger without a segment_id")
  else
    request
      (mkRequest
         ("/v1/collections/" ++ this_collectionID this ++ "/triggers/insert")
         (Some (TriggerBody trigger))
         POST
         write).

End Manager.

End Collection.

(** ** src/collection.ts, the other methods of the manager

    The methods are run against a world that records the requests handed
    to the HTTP collaborator, the readings of the clock and the lines
    written to the console.  A body is the JavaScript value the method
    passes on. *)

Module CollectionApi.
Import Effect Collection.

(** The argument of [oramaInterface.request], with its body as a value. *)
Record ApiRequest : Type := mkApiRequest {
  api_url : string;
  api_body : option JS.value;
  api_method : Method;
  api_securityLevel : SecurityLevel
}.

(** [ExecuteToolsResponse] is declared in index.ts; the manager reads its
    nullable [results], and of each result the [name] and the serialized
    [arguments]. *)
Record ToolCall : Type := mkToolCall {
  call_name : string;
  call_arguments : string
}.

Record ExecuteToolsResponse : Type := mkExecuteToolsResponse {
  results : option (list ToolCall)
}.

(** [ExecuteToolsParsedResponse], as [executeTools] builds it. *)
Record ParsedToolCall : Type := mkParsedToolCall {
  parsed_name : string;
  parsed_arguments : JS.value
}.

Record ExecuteToolsParsedResponse : Type := mkExecuteToolsParsedResponse {
  parsed_results : option (list ParsedToolCall)
}.

(** The world a method runs in: the requests sent so far, oldest first,
    the clock as the sequence of its readings with the number of
    readings taken, and what was logged to the console, oldest first. *)
Record World : Type := mkWorld {
  sent : list ApiRequest;
  clock : nat -> Z;
  clockReads : nat;
  console : list ExecuteToolsResponse
}.

(** *** Objects *)

(** [o[key]] on the properties of an object. *)
Fixpoint get_field (key : string) (fields : list (string * JS.value))
  : JS.value :=
  match fields with
  | [] => JS.VUndefined
  | (k, v) :: rest => if (k =? key)%string then v else get_field key rest
  end.

(** The properties of an object after [o[key] = v]: a property that is
    there keeps its place, a new one goes last. *)
Fixpoint set_field (key : string) (v : JS.value)
  (fields : list (string * JS.value)) : list (string * JS.value) :=
  match fields with
  | [] => [(key, v)]
  | (k, old) :: rest =>
      if (k =? key)%string then (k, v) :: rest
      else (k, old) :: set_field key v rest
  end.

(** The index keys of an array or of a string, from [i] on. *)
Fixpoint indexed (i : nat) (items : list JS.value)
  : list (string * JS.value) :=
  match items with
  | [] => []
  | item :: rest =>
      (JSNumber.toString (Z.of_nat i), item) :: indexed (S i) rest
  end.

Fixpoint characters_of (s : string) : list JS.value :=
  match s with
  | EmptyString => []
  | String c rest => JS.VStr (String c EmptyString) :: characters_of rest
  end.

(** The properties [{...v}] copies: the own enumerable ones. *)
Definition spread (v : JS.value) : list (string * JS.value) :=
  match v with
  | JS.VObj fields => fields
  | JS.VArr items => indexed 0 items
  | JS.VStr s => indexed 0 (characters_of s)
  | _ => []
  end.

(** *** The return values that are records *)

(** [AddHookConfig] and [NewHookresponse]. *)
Record AddHookConfig : Type := mkAddHookConfig {
  hook_name : string;
  hook_collectionID : string;
  hook_code : string
}.

Record NewHookresponse : Type := mkNewHookresponse {
  hookID : string;
  response_collectionID : string;
  response_code : string
}.

Section Methods.

Local Open Scope effect_scope.

(** How the remote service settles a request, and the request of
    [executeTools], whose response the manager takes apart. *)
Variable remote : ApiRequest -> Promise JS.value.
Variable remoteTools : ApiRequest -> Promise ExecuteToolsResponse.

(** [JSON.stringify] on a value, and [JSON.parse], which throws on a text
    that is not JSON. *)
Variable JSON_stringify : JS.value -> string.
Variable JSON_parse : string -> Completion JS.value.

(** The instances of [ZodType], and [zodToJsonSchema]. *)
Variable ZodType : Type.
Variable zodToJsonSchema : ZodType -> JS.value.

Definition send (r : ApiRequest) : M World unit :=
  modify (fun w =>
    mkWorld (sent w ++ [r]) (clock w) (clockReads w) (console w)).

(** [this.oramaInterface.request(config)]. *)
Definition request (r : ApiRequest) : M World (Promise JS.value) :=
  send r ;; ret (remote r).

Definition requestTools (r : ApiRequest)
  : M World (Promise ExecuteToolsResponse) :=
  send r ;; ret (remoteTools r).

(** [+new Date()]. *)
Definition Date_now : M World Z :=
  w <- get ;;
  modify (fun w =>
    mkWorld (sent w) (clock w) (S (clockReads w)) (console w)) ;;
  ret (clock w (clockReads w)).

(** [console.log(response)]. *)
Definition console_log (response : ExecuteToolsResponse) : M World unit :=
  modify (fun w =>
    mkWorld (sent w) (clock w) (clockReads w) (console w ++ [response])).

(** [const x = await p; ...] in an async function: the rest runs on the
    value [p] is fulfilled with; a rejection of [p] rejects the function's
    own promise. *)
Definition await {A B : Type} (p : Promise A)
  (rest : A -> M World (Promise B)) : M World (Promise B) :=
  match p with
  | Fulfilled a => rest a
  | Rejected reason => ret (Rejected reason)
  end.

(** The path of an endpoint of a collection. *)
Definition endpoint_url (collectionID path : string) : string :=
  ("/v1/collections/" ++ collectionID ++ path)%string.

(** [delete(documentIDs)]. *)
Definition delete (this : CollectionManager) (documentIDs : JS.value)
  : M World (Promise unit) :=
  let documentIDs :=
    if negb (JS.isArray documentIDs) then JS.VArr [documentIDs]
    else documentIDs in
  p <- request
         (mkApiRequest (endpoint_url (this_collectionID this) "/delete")
            (Some documentIDs) POST write) ;;
  await p (fun _ => ret (Fulfilled tt)).

(** [search(query)]. *)
Definition search (this : CollectionManager) (query : JS.value)
  : M World (Promise JS.value) :=
  start <- Date_now ;;
  p <- request
         (mkApiRequest (endpoint_url (this_collectionID this) "/search")
            (Some query) POST read_query) ;;
  await p (fun result =>
    finish <- Date_now ;;
    let elapsed := (finish - start)%Z in
    ret (Fulfilled
           (JS.VObj
              (set_field "elapsed"
                 (JS.VObj [("raw", JS.VNum elapsed);
                           ("formatted",
                            JS.VStr (Utils.formatDuration elapsed))])
                 (spread result))))).

(** [insertHook(config)]. *)
Definition insertHook (this : CollectionManager) (config : AddHookConfig)
  : M World (Promise NewHookresponse) :=
  let body :=
    JS.VObj [("name", JS.VStr (hook_name config));
             ("code", JS.VStr (hook_code config))] in
  p <- request
         (mkApiRequest
            (endpoint_url (hook_collectionID config) "/hooks/create")
            (Some body) POST write) ;;
  await p (fun _ =>
    ret (Fulfilled
           (mkNewHookresponse (hook_name config) (hook_collectionID config)
              (hook_code config)))).

(** The methods that hand one request over and return its promise. *)

Definition insertSegment (this : CollectionManager) (segment : JS.value)
  : M World (Promise JS.value) :=
  request
    (mkApiRequest (endpoint_url (this_collectionID this) "/segments/insert")
       (Some segment) POST write).

Definition getSegment (this : CollectionManager) (id : string)
  : M World (Promise JS.value) :=
  request
    (mkApiRequest (endpoint_url (this_collectionID this) "/segments/get")
       (Some (JS.VObj [("segment_id", JS.VStr id)])) GET read_query).

Definition getAllSegments (this : CollectionManager)
  : M World (Promise JS.value) :=
  request
    (mkApiRequest (endpoint_url (this_collectionID this) "/segments/all")
       None GET read_query).

Definition deleteSegment (this : CollectionManager) (id : string)
  : M World (Promise JS.value) :=
  request
    (mkApiRequest (endpoint_url (this_collectionID this) "/segments/delete")
       (Some (JS.VObj [("id", JS.VStr id)])) POST write).

Definition updateSegment (this : CollectionManager) (segment : JS.value)
  : M World (Promise JS.value) :=
  request
    (mkApiRequest (endpoint_url (this_collectionID this) "/segments/update")
       (Some segment) POST write).

Definition getTrigger (this : CollectionManager) (id : string)
  : M World (Promise JS.value) :=
  request
    (mkApiRequest (endpoint_url (this_collectionID this) "/triggers/get")
       (Some (JS.VObj [("trigger_id", JS.VStr id)])) GET read_query).

Definition getAllTriggers (this : CollectionManager)
  : M World (Promise JS.value) :=
  request
    (mkApiRequest (endpoint_url (this_collectionID this) "/triggers/all")
       None GET read_query).

Definition deleteTrigger (this : CollectionManager) (id : string)
  : M World (Promise JS.value) :=
  request
    (mkApiRequest (endpoint_url (this_collectionID this) "/triggers/delete")
       (Some (JS.VObj [("id", JS.VStr id)])) POST write).

Definition updateTrigger (this : CollectionManager) (trigger : JS.value)
  : M World (Promise JS.value) :=
  request
    (mkApiRequest (endpoint_url (this_collectionID this) "/triggers/update")
       (Some trigger) POST write).

Definition insertSystemPrompt (this : CollectionManager)
  (systemPrompt : JS.value) : M World (Promise JS.value) :=
  request
    (mkApiRequest
       (endpoint_url (this_collectionID this) "/system_prompts/insert")
       (Some systemPrompt) POST write).

Definition getSystemPrompt (this : CollectionManager) (id : string)
  : M World (Promise JS.value) :=
  request
    (mkApiRequest
       (endpoint_url (this_collectionID this) "/system_prompts/get")
       (Some (JS.VObj [("system_prompt_id", JS.VStr id)])) GET read).

Definition getAllSystemPrompts (this : CollectionManager)
  : M World (Promise JS.value) :=
  request
    (mkApiRequest
       (endpoint_url (this_collectionID this) "/system_prompts/all")
       None GET read_query).

Definition deleteSystemPrompt (this : CollectionManager) (id : string)
  : M World (Promise JS.value) :=
  request
    (mkApiRequest
       (endpoint_url (this_collectionID this) "/system_prompts/delete")
       (Some (JS.VObj [("id", JS.VStr id)])) POST write).

Definition updateSystemPrompt (this : CollectionManager)
  (systemPrompt : JS.value) : M World (Promise JS.value) :=
  request
    (mkApiRequest
       (endpoint_url (this_collectionID this) "/system_prompts/update")
       (Some systemPrompt) POST write).

Definition validateSystemPrompt (this : CollectionManager)
  (systemPrompt : JS.value) : M World (Promise JS.value) :=
  request
    (mkApiRequest
       (endpoint_url (this_collectionID this) "/system_prompts/validate")
       (Some systemPrompt) POST write).

(** [tool.parameters]: an instance of [ZodType], or any other value. *)
Inductive ToolParameters : Type :=
| ParametersZod (schema : ZodType)
| ParametersValue (v : JS.value).

(** [InsertToolBody]: its [parameters], and its other properties. *)
Record InsertToolBody : Type := mkInsertToolBody {
  tool_parameters : ToolParameters;
  tool_fields : list (string * JS.value)
}.

(** The [switch (true)] of [insertTool]: a string is taken as it is, a
    Zod schema and an object are serialized, anything else is refused.
    [typeof] is ['object'] on objects, arrays and [null]. *)
Definition toolParametersText (parameters : ToolParameters)
  : Completion string :=
  match parameters with
  | ParametersValue (JS.VStr text) => Return text
  | ParametersZod schema => Return (JSON_stringify (zodToJsonSchema schema))
  | ParametersValue (JS.VObj fields) =>
      Return (JSON_stringify (JS.VObj fields))
  | ParametersValue (JS.VArr items) =>
      Return (JSON_stringify (JS.VArr items))
  | ParametersValue JS.VNull => Return (JSON_stringify JS.VNull)
  | ParametersValue _ =>
      Throw (JS.Error
               "Invalid parameters type. Must be string, object or ZodType")
  end.

(** [insertTool(tool)]. *)
Definition insertTool (this : CollectionManager) (tool : InsertToolBody)
  : M World (Promise JS.value) :=
  parameters <- lift (toolParametersText (tool_parameters tool)) ;;
  request
    (mkApiRequest (endpoint_url (this_collectionID this) "/tools/insert")
       (Some (JS.VObj
                (set_field "parameters" (JS.VStr parameters)
                   (tool_fields tool))))
       POST write).

Definition getTool (this : CollectionManager) (id : string)
  : M World (Promise JS.value) :=
  request
    (mkApiRequest (endpoint_url (this_collectionID this) "/tools/get")
       (Some (JS.VObj [("tool_id", JS.VStr id)])) GET read_query).

Definition getAllTools (this : CollectionManager)
  : M World (Promise JS.value) :=
  request
    (mkApiRequest (endpoint_url (this_collectionID this) "/tools/all")
       None GET read_query).

Definition deleteTool (this : CollectionManager) (id : string)
  : M World (Promise JS.value) :=
  request
    (mkApiRequest (endpoint_url (this_collectionID this) "/tools/delete")
       (Some (JS.VObj [("id", JS.VStr id)])) POST write).

Definition updateTool (this : CollectionManager) (tool : JS.value)
  : M World (Promise JS.value) :=
  request
    (mkApiRequest (endpoint_url (this_collectionID this) "/tools/update")
       (Some tool) POST write).

(** [response.results.map(...)]: the results are parsed in order, and the
    first text that is not JSON throws. *)
Fixpoint parseResults (calls : list ToolCall)
  : Completion (list ParsedToolCall) :=
  match calls with
  | [] => Return []
  | call :: rest =>
      match JSON_parse (call_arguments call) with
      | Throw e => Throw e
      | Return arguments =>
          match parseResults rest with
          | Throw e => Throw e
          | Return parsed =>
              Return (mkParsedToolCall (call_name call) arguments :: parsed)
          end
      end
  end.

(** [executeTools(tools)]. *)
Definition executeTools (this : CollectionManager) (tools : JS.value)
  : M World (Promise ExecuteToolsParsedResponse) :=
  p <- requestTools
         (mkApiRequest (endpoint_url (this_collectionID this) "/tools/run")
            (Some tools) POST read) ;;
  await p (fun response =>
    console_log response ;;
    match results response with
    | Some calls =>
        match parseResults calls with
        | Return parsedResults =>
            ret (Fulfilled (mkExecuteToolsParsedResponse (Some parsedResults)))
        | Throw e => ret (Rejected e)
        end
    | None => ret (Fulfilled (mkExecuteToolsParsedResponse None))
    end).

(** *** The methods as one interface *)

Inductive Operation : Type :=
| OpDelete (documentIDs : JS.value)
| OpSearch (query : JS.value)
| OpInsertHook (config : AddHookConfig)
| OpInsertSegment (segment : JS.value)
| OpGetSegment (id : string)
| OpGetAllSegments
| OpDeleteSegment (id : string)
| OpUpdateSegment (segment : JS.value)
| OpGetTrigger (id : string)
| OpGetAllTriggers
| OpDeleteTrigger (id : string)
| OpUpdateTrigger (trigger : JS.value)
| OpInsertSystemPrompt (systemPrompt : JS.value)
| OpGetSystemPrompt (id : string)
| OpGetAllSystemPrompts
| OpDeleteSystemPrompt (id : string)
| OpUpdateSystemPrompt (systemPrompt : JS.value)
| OpValidateSystemPrompt (systemPrompt : JS.value)
| OpInsertTool (tool : InsertToolBody)
| OpGetTool (id : string)
| OpGetAllTools
| OpDeleteTool (id : string)
| OpUpdateTool (tool : JS.value)
| OpExecuteTools (tools : JS.value).

(** A call of a method, its return value left aside. *)
Definition perform (this : CollectionManager) (op : Operation)
  : M World unit :=
  match op with
  | OpDelete documentIDs => delete this documentIDs ;; ret tt
  | OpSearch query => search this query ;; ret tt
  | OpInsertHook config => insertHook this config ;; ret tt
  | OpInsertSegment segment => insertSegment this segment ;; ret tt
  | OpGetSegment id => getSegment this id ;; ret tt
  | OpGetAllSegments => getAllSegments this ;; ret tt
  | OpDeleteSegment id => deleteSegment this id ;; ret tt
  | OpUpdateSegment segment => updateSegment this segment ;; ret tt
  | OpGetTrigger id => getTrigger this id ;; ret tt
  | OpGetAllTriggers => getAllTriggers this ;; ret tt
  | OpDeleteTrigger id => deleteTrigger this id ;; ret tt
  | OpUpdateTrigger trigger => updateTrigger this trigger ;; ret tt
  | OpInsertSystemPrompt systemPrompt =>
      insertSystemPrompt this systemPrompt ;; ret tt
  | OpGetSystemPrompt id => getSystemPrompt this id ;; ret tt
  | OpGetAllSystemPrompts => getAllSystemPrompts this ;; ret tt
  | OpDeleteSystemPrompt id => deleteSystemPrompt this id ;; ret tt
  | OpUpdateSystemPrompt systemPrompt =>
      updateSystemPrompt this systemPrompt ;; ret tt
  | OpValidateSystemPrompt systemPrompt =>
      validateSystemPrompt this systemPrompt ;; ret tt
  | OpInsertTool tool => insertTool this tool ;; ret tt
  | OpGetTool id => getTool this id ;; ret tt
  | OpGetAllTools => getAllTools this ;; ret tt
  | OpDeleteTool id => deleteTool this id ;; ret tt
  | OpUpdateTool tool => updateTool this tool ;; ret tt
  | OpExecuteTools tools => executeTools this tools ;; ret tt
  end.

(** The collection a call addresses: the manager's own, except for
    [insertHook], which takes it from its argument. *)
Definition addressed (this : CollectionManager) (op : Operation) : string :=
  match op with
  | OpInsertHook config => hook_collectionID config
  | _ => this_collectionID this
  end.

End Methods.

(** What every request of the manager satisfies: it goes to an endpoint of
    the collection, a GET never asks for the write key, and a request at
    the write level is a POST with a body. *)
Definition well_formed (collectionID : string) (r : ApiRequest) : Prop :=
  String.prefix ("/v1/collections/" ++ collectionID ++ "/") (api_url r) = true
  /\ (api_method r = GET -> api_securityLevel r <> write)
  /\ (api_securityLevel r = write ->
      api_method r = POST /\ api_body r <> None).

End CollectionApi.

(** ** Sample inputs *)

Module Samples.

Definition sampleConfig : Session.AnswerSessionConfig :=
  Session.mkAnswerSessionConfig "https://host" "read-key" "docs" None None
    true.

(** The session [new AnswerSession(sampleConfig)] yields. *)
Definition sampleSession : Session.AnswerSession :=
  Session.mkSession sampleConfig [] [] [] None 0 [].

(** A stand-in for the parser of tool-call arguments: it accepts the texts
    that open an object. *)
Definition sampleParse (text : string) : option JS.value :=
  match text with
  | String "{" _ => Some (JS.VObj [])
  | _ => None
  end.

(** A session with an ask in flight and part of its answer received. *)
Definition streamingSession : Session.AnswerSession :=
  Session.run sampleParse
    [Session.Ask "X"; Session.FragmentArrived "par"] sampleSession.

(** A session whose only ask was answered. *)
Definition answeredSession : Session.AnswerSession :=
  Session.run sampleParse
    [Session.Ask "X"; Session.FragmentArrived "all"; Session.StreamEnded]
    sampleSession.

Definition answeredInteraction : Session.Interaction :=
  Session.mkInteraction 0 "X" "all" None Session.done None false.

(** A plan of two required steps, a retrieval and a tool call, and the
    session that has run the first of them. *)
Definition sampleDescriptor : list Session.StepDescriptor :=
  [Session.mkStepDescriptor Session.retrieval true "";
   Session.mkStepDescriptor Session.tool_call true "{}"].

Definition planSession : Session.AnswerSession :=
  Session.run sampleParse
    [Session.Ask "q"; Session.PlanDeclared sampleDescriptor;
     Session.StepResolved (Session.Succeeded "docs")]
    sampleSession.

Definition toolStep : Session.Step :=
  Session.mkStep Session.tool_call Session.step_pending None true "{}".

Definition planExecution : Session.PlanExecution :=
  Session.mkPlan
    [Session.mkStep Session.retrieval Session.step_done (Some "docs") true "";
     toolStep]
    1.

Definition planInteraction : Session.Interaction :=
  Session.mkInteraction 0 "q" "" None Session.streaming (Some planExecution)
    false.

(** Calls of a rate-limited function at 0, 40 and 120 ms, the host
    running the first timer at 100 ms; and the closure [throttle] leaves
    with a limit of 100 ms. *)
Definition throttleTrace : list (Utils.TimerEvent string) :=
  [Utils.Called 0 "a"; Utils.Called 40 "b"; Utils.Fired 100 0;
   Utils.Called 120 "c"].

Definition throttleEnd : Utils.Throttle string :=
  Utils.mkThrottle string (Some true) [(1%nat, 220%Z)] 2 120
    [(120%Z, "c"); (0%Z, "a")].

(** A draw for each of [n] equal parts of the interval [0, 1): the
    largest multiple of 2^-53 that is not above the middle of the [k]-th
    part. *)
Definition middle_draw (k n : Z) : Q :=
  Qmake ((2 * k + 1) * 2 ^ 52 / n) (2 ^ 53).

(** Three functions to throttle: one that returns, one that throws, and
    one that calls its throttled self back, once, from the call it is
    given from outside. *)
Definition plainFunc (args : string)
  : Effect.M (Utils.Throttle string) unit :=
  Effect.ret tt.

Definition throwingFunc (args : string)
  : Effect.M (Utils.Throttle string) unit :=
  Effect.throw (JS.Error "failed").

Definition reentrantFunc (limit : Z) (args : string)
  : Effect.M (Utils.Throttle string) unit :=
  if String.eqb args "again" then Effect.ret tt
  else Utils.throttled limit plainFunc "again".

(** Two hosts for [sendBeacon]: one whose [fetch] is rejected, one that
    has no [fetch]. *)
Definition rejectingFetch (endpoint : string) (init : Utils.FetchInit)
  : Effect.Completion (option JS.Exception) :=
  Effect.Return (Some (JS.Error "offline")).

Definition missingFetch (endpoint : string) (init : Utils.FetchInit)
  : Effect.Completion (option JS.Exception) :=
  Effect.Throw (JS.Error "fetch is not defined").

Definition acceptingBeacon (endpoint : string) (body : option string)
  : Effect.Completion bool :=
  Effect.Return true.

(** Two calls of a debounced function 40 ms apart, and the closure
    [debounce] leaves with a delay of 100 ms, before and after its timer
    runs at 140 ms. *)
Definition debounceTrace : list (Utils.TimerEvent string) :=
  [Utils.Called 0 "a"; Utils.Called 40 "b"].

Definition debouncePending : Utils.Debounce string :=
  Utils.mkDebounce string (Some 1%nat) [(1%nat, (140%Z, "b"))] 2 40 [].


(** A manager, a world whose clock advances by 1.5 s between readings,
    and three services: one that answers a search, one that is off line,
    and one that answers [executeTools] with one call. *)
Definition sampleManager : Collection.CollectionManager :=
  Collection.newCollectionManager
    (Collection.mkCollectionManagerConfig "https://host" "docs" (Some "w")
       (Some "r")).

Definition sampleWorld : CollectionApi.World :=
  CollectionApi.mkWorld [] (fun n => (1000 + 1500 * Z.of_nat n)%Z) 0 [].

Definition searchService (r : CollectionApi.ApiRequest)
  : Collection.Promise JS.value :=
  Collection.Fulfilled
    (JS.VObj [("count", JS.VNum 2); ("elapsed", JS.VStr "stale")]).

Definition offlineService (r : CollectionApi.ApiRequest)
  : Collection.Promise JS.value :=
  Collection.Rejected (JS.Error "offline").

Definition toolsAnswer : CollectionApi.ExecuteToolsResponse :=
  CollectionApi.mkExecuteToolsResponse
    (Some [CollectionApi.mkToolCall "sum" "{}"]).

Definition toolsService (r : CollectionApi.ApiRequest)
  : Collection.Promise CollectionApi.ExecuteToolsResponse :=
  Collection.Fulfilled toolsAnswer.

(** A stand-in for [JSON.parse], after [sampleParse]. *)
Definition sampleJSONParse (text : string) : Effect.Completion JS.value :=
  match sampleParse text with
  | Some v => Effect.Return v
  | None => Effect.Throw (JS.Error "SyntaxError")
  end.

End Samples.

(** * Properties *)

(** ** Rounding to the nearest double *)

Section NumberFacts.
Import JSNumber.

Lemma round_half_even_bound (a b : Z) :
  (0 < b)%Z -> (- b <= 2 * (b * round_half_even a b - a) <= b)%Z.
Proof.
  intros Hb. unfold round_half_even.
  pose proof (Z.div_mod a b ltac:(lia)) as Hdm.
  pose proof (Z.mod_pos_bound a b Hb) as Hr.
  destruct (Z.compare_spec (2 * (a mod b)) b) as [He|Hl|Hg]; [|nia|nia].
  destruct (Z.even (a / b)); nia.
Qed.

Lemma round_half_even_exact (a b k : Z) :
  (0 < b)%Z -> a = (k * b)%Z -> round_half_even a b = k.
Proof.
  intros Hb ->. unfold round_half_even.
  rewrite Z.mod_mul, Z.div_mul by lia.
  destruct (Z.compare_spec (2 * 0) b); lia.
Qed.

(** The integer nearest to a rational that is an integer is that
    integer. *)
Lemma nearest_exact (y : Q) (k : Z) :
  (y == inject_Z k)%Q -> round_half_even (Qnum y) (Zpos (Qden y)) = k.
Proof.
  intros H. apply round_half_even_exact; [lia|].
  unfold Qeq in H. cbn in H. lia.
Qed.

(** The nearest integer is at most one half away. *)
Lemma nearest_bound (y : Q) :
  (- (1 # 2)
   <= inject_Z (round_half_even (Qnum y) (Zpos (Qden y))) - y
   <= 1 # 2)%Q.
Proof.
  pose proof (round_half_even_bound (Qnum y) (Zpos (Qden y)) ltac:(lia)) as H.
  destruct y as [a b]. cbn [Qnum Qden] in *.
  set (m := round_half_even a (Z.pos b)) in *.
  unfold Qle, Qminus, Qplus, Qopp, inject_Z. cbn. lia.
Qed.

Lemma pow2_pos (e : Z) : (0 < 2 ^ e)%Q.
Proof. apply Qpower_0_lt. reflexivity. Qed.

Lemma scale_back (x : Q) (e : Z) : (x / 2 ^ e * 2 ^ e == x)%Q.
Proof.
  pose proof (pow2_pos e) as H. field.
  intros H0. rewrite H0 in H. discriminate.
Qed.

Lemma exponent_floor (x : Q) : (1 <= x)%Q -> exponent x = Z.log2 (Qfloor x).
Proof.
  intros H. unfold exponent. apply Qle_bool_iff in H. now rewrite H.
Qed.

Lemma inject_Z_minus (x y : Z) :
  inject_Z (x - y) = (inject_Z x - inject_Z y)%Q.
Proof. unfold Z.sub. now rewrite inject_Z_plus, inject_Z_opp. Qed.

(** Below 2^44 the nearest double is less than a thousandth away. *)
Lemma round_error (x : Q) :
  (1 <= x)%Q -> (x < inject_Z (2 ^ 44))%Q ->
  (- (1 # 1024) <= round x - x <= 1 # 1024)%Q.
Proof.
  intros H1 H2. unfold round.
  assert (Hpos : (0 < x)%Q) by lra.
  apply Qgt_alt in Hpos. rewrite Hpos. unfold round_positive.
  rewrite (exponent_floor x H1).
  set (e := (Z.log2 (Qfloor x) - 52)%Z).
  assert (He : (e <= -9)%Z).
  { assert (Z.log2 (Qfloor x) < 44)%Z; [|lia].
    assert (Hf1 : (1 <= Qfloor x)%Z).
    { change 1%Z with (Qfloor (inject_Z 1)). now apply Qfloor_resp_le. }
    apply Z.log2_lt_pow2; [lia|].
    apply Z.lt_nge. intros Hge. rewrite Zle_Qle in Hge.
    pose proof (Qfloor_le x). lra. }
  pose proof (nearest_bound (x / 2 ^ e)) as Hn.
  set (m := inject_Z
              (round_half_even (Qnum (x / 2 ^ e))
                 (Z.pos (Qden (x / 2 ^ e))))) in *.
  pose proof (scale_back x e) as Hs.
  pose proof (pow2_pos e) as Ht0.
  assert (Ht : (2 ^ e <= 1 # 512)%Q).
  { change (1 # 512)%Q with (2 ^ (-9))%Q.
    apply Qpower_le_compat_l; [exact He | discriminate]. }
  set (t := (2 ^ e)%Q) in *. set (y := (x / t)%Q) in *.
  setoid_replace (m * t - x)%Q with ((m - y) * t)%Q
    by (rewrite <- Hs at 1; ring).
  split; nra.
Qed.

(** An integer below 2^53 is a double. *)
Lemma round_exact (x : Q) (n : Z) :
  (x == inject_Z n)%Q -> (1 <= n < 2 ^ 53)%Z -> (round x == inject_Z n)%Q.
Proof.
  intros Hx Hn. unfold round.
  assert (H1 : (1 <= x)%Q).
  { rewrite Hx. change 1%Q with (inject_Z 1). rewrite <- Zle_Qle. lia. }
  assert (Hpos : (0 < x)%Q) by lra.
  apply Qgt_alt in Hpos. rewrite Hpos. unfold round_positive.
  rewrite (exponent_floor x H1), (Qfloor_comp _ _ Hx), Qfloor_Z.
  assert (Hl : (Z.log2 n < 53)%Z) by (apply Z.log2_lt_pow2; lia).
  pose proof (Z.log2_nonneg n) as Hl0.
  set (k := (52 - Z.log2 n)%Z).
  replace (Z.log2 n - 52)%Z with (- k)%Z by lia.
  assert (Hy : (x / 2 ^ (- k) == inject_Z (n * 2 ^ k))%Q).
  { rewrite Qpower_opp, inject_Z_mult, Zpower_Qpower, Hx by lia.
    pose proof (pow2_pos k) as H. change (inject_Z 2) with 2%Q. field.
    intros H0. rewrite H0 in H. discriminate. }
  rewrite (nearest_exact _ _ Hy).
  rewrite <- Hy, scale_back. exact Hx.
Qed.

Lemma round_half_even_nonneg (a b : Z) :
  (0 <= a)%Z -> (0 < b)%Z -> (0 <= round_half_even a b)%Z.
Proof.
  intros Ha Hb. unfold round_half_even.
  pose proof (Z.div_pos a b Ha Hb) as Hf.
  destruct (2 * (a mod b) ?= b)%Z; [destruct (Z.even (a / b))|..]; lia.
Qed.

Lemma Qnum_nonneg (y : Q) : (0 < y)%Q -> (0 <= Qnum y)%Z.
Proof. destruct y as [a b]. unfold Qlt. cbn. lia. Qed.

(** The nearest double of a positive number is at most half a unit in the
    last place away. *)
Lemma round_positive_error (x : Q) :
  (0 < x)%Q ->
  (0 <= round_positive x)%Q
  /\ (round_positive x - x <= (1 # 2) * 2 ^ (exponent x - 52))%Q
  /\ (x - round_positive x <= (1 # 2) * 2 ^ (exponent x - 52))%Q.
Proof.
  intros Hx. unfold round_positive.
  set (e := (exponent x - 52)%Z).
  pose proof (nearest_bound (x / 2 ^ e)) as Hn.
  pose proof (scale_back x e) as Hs.
  pose proof (pow2_pos e) as Ht0.
  assert (Hy : (0 < x / 2 ^ e)%Q).
  { apply Qlt_shift_div_l; [exact Ht0 | lra]. }
  assert (Hm : (0 <= round_half_even (Qnum (x / 2 ^ e))
                       (Z.pos (Qden (x / 2 ^ e))))%Z).
  { apply round_half_even_nonneg; [now apply Qnum_nonneg | lia]. }
  rewrite Zle_Qle in Hm. change (inject_Z 0) with 0%Q in Hm.
  set (m := inject_Z
              (round_half_even (Qnum (x / 2 ^ e))
                 (Z.pos (Qden (x / 2 ^ e))))) in *.
  set (t := (2 ^ e)%Q) in *. set (y := (x / t)%Q) in *.
  split; [nra|].
  setoid_replace (m * t - x)%Q with ((m - y) * t)%Q
    by (rewrite <- Hs at 1; ring).
  setoid_replace (x - m * t)%Q with ((y - m) * t)%Q
    by (rewrite <- Hs at 1; ring).
  split; nra.
Qed.

Lemma round_nonneg (x : Q) : (0 <= x)%Q -> (0 <= round x)%Q.
Proof.
  intros Hx. unfold round.
  destruct (Qcompare_spec x 0) as [He|Hl|Hg].
  - lra.
  - lra.
  - now apply round_positive_error.
Qed.

(** The exponent of a positive number below [2^(k+1)] is at most [k]. *)
Lemma exponent_le (x : Q) (k : Z) :
  (0 <= k)%Z -> (0 < x)%Q -> (x < inject_Z (2 ^ (k + 1)))%Q ->
  (exponent x <= k)%Z.
Proof.
  intros Hk Hx Hlt. unfold exponent.
  destruct (Qle_bool 1 x) eqn:E.
  - apply Qle_bool_iff in E.
    assert (Hf1 : (1 <= Qfloor x)%Z).
    { change 1%Z with (Qfloor (inject_Z 1)). now apply Qfloor_resp_le. }
    assert (Z.log2 (Qfloor x) < k + 1)%Z; [|lia].
    apply Z.log2_lt_pow2; [lia|].
    apply Z.lt_nge. intros Hge. rewrite Zle_Qle in Hge.
    pose proof (Qfloor_le x). lra.
  - pose proof (Z.log2_up_nonneg (Qceiling (/ x))). lia.
Qed.

(** A positive number below [2^(k+1)] moves by at most [2^(k-53)] when it
    is rounded. *)
Lemma round_error_below (x : Q) (k : Z) :
  (0 <= k)%Z -> (0 <= x)%Q -> (x < inject_Z (2 ^ (k + 1)))%Q ->
  (0 <= round x)%Q /\ (round x <= x + 2 ^ (k - 53))%Q.
Proof.
  intros Hk Hx Hlt. split; [now apply round_nonneg|].
  pose proof (pow2_pos (k - 53)) as Hp.
  unfold round. destruct (Qcompare_spec x 0) as [He|Hl|Hg]; [lra|lra|].
  destruct (round_positive_error x Hg) as (_ & Hup & _).
  assert (He : (2 ^ (exponent x - 52) <= 2 ^ (k - 52))%Q).
  { apply Qpower_le_compat_l; [|discriminate].
    pose proof (exponent_le x k Hk Hg Hlt). lia. }
  assert (Hh : ((1 # 2) * 2 ^ (k - 52) == 2 ^ (k - 53))%Q).
  { replace (k - 52)%Z with (1 + (k - 53))%Z by lia.
    rewrite Qpower_plus by discriminate. change (2 ^ 1)%Q with 2%Q. ring. }
  lra.
Qed.

Lemma exponent_half (x : Q) :
  ((1 # 2) <= x)%Q -> (x < 1)%Q -> exponent x = (-1)%Z.
Proof.
  intros Hlo Hhi. unfold exponent.
  destruct (Qle_bool 1 x) eqn:E; [apply Qle_bool_iff in E; lra|].
  assert (Hx : (0 < x)%Q) by lra.
  pose proof (Qinv_lt_0_compat x Hx) as Hi.
  assert (Hm : (/ x * x == 1)%Q).
  { rewrite Qmult_comm. apply Qmult_inv_r. lra. }
  set (i := (/ x)%Q) in *.
  assert (Hi1 : (1 < i)%Q) by nra.
  assert (Hi2 : (i <= 2)%Q) by nra.
  pose proof (Qle_ceiling i) as Hc1.
  pose proof (Qceiling_lt i) as Hc2.
  rewrite inject_Z_minus in Hc2. change (inject_Z 1) with 1%Q in Hc2.
  assert (Hc : Qceiling i = 2%Z).
  { assert (1 < Qceiling i)%Z by (rewrite Zlt_Qlt; change (inject_Z 1) with 1%Q; lra).
    assert (Qceiling i < 3)%Z by (rewrite Zlt_Qlt; change (inject_Z 3) with 3%Q; lra).
    lia. }
  rewrite Hc. reflexivity.
Qed.

(** The largest double below 1 is [1 - 2^-53]. *)
Lemma double_below_one (r : Q) :
  is_double r -> (r < 1)%Q ->
  (r <= 9007199254740991 # 9007199254740992)%Q.
Proof.
  intros Hd Hr. destruct (Qlt_le_dec r (1 # 2)) as [Hs|Hl]; [lra|].
  unfold is_double, round in Hd.
  destruct (Qcompare_spec r 0) as [He|Hlt|Hg]; [lra|lra|].
  unfold round_positive in Hd. rewrite (exponent_half r Hl Hr) in Hd.
  change (-1 - 52)%Z with (-53)%Z in Hd.
  set (m := round_half_even _ _) in Hd.
  assert (Hp : (2 ^ (-53) == 1 # 9007199254740992)%Q) by reflexivity.
  rewrite Hp in Hd.
  assert (Hm : (m < 9007199254740992)%Z).
  { rewrite Zlt_Qlt.
    change (inject_Z 9007199254740992) with 9007199254740992%Q. lra. }
  assert (Hm' : (m <= 9007199254740991)%Z) by lia.
  rewrite Zle_Qle in Hm'.
  change (inject_Z 9007199254740991) with 9007199254740991%Q in Hm'. lra.
Qed.

(** The product of a double below 1 with 65 stays below 65 when it is
    rounded, and so does its integer part. *)
Lemma mul_65_range (r : Q) :
  is_double r -> (0 <= r)%Q -> (r < 1)%Q ->
  (0 <= Qfloor (mul r (inject_Z 65)) < 65)%Z.
Proof.
  intros Hd H0 H1. unfold mul.
  pose proof (double_below_one r Hd H1) as Hr.
  change (inject_Z 65) with 65%Q.
  destruct (round_error_below (r * 65) 6) as [Hlo Hhi];
    [lia | lra | change (inject_Z (2 ^ (6 + 1))) with 128%Q; lra |].
  assert (Hp : (2 ^ (6 - 53) == 1 # 140737488355328)%Q) by reflexivity.
  rewrite Hp in Hhi.
  set (v := round (r * 65)) in *.
  assert (Hv : (v < 65)%Q) by lra.
  split.
  - change 0%Z with (Qfloor (inject_Z 0)). now apply Qfloor_resp_le.
  - rewrite Zlt_Qlt. change (inject_Z 65) with 65%Q.
    pose proof (Qfloor_le v). lra.
Qed.

End NumberFacts.

(** ** createRandomString *)

Section UtilsFacts.
Import Utils.

Lemma characters_length : JS.length characters = 65%Z.
Proof. reflexivity. Qed.

(** The alphabet is exactly the set of ASCII letters, digits, underscore,
    hyphen and dollar sign. *)
Lemma characters_alphabet (c : ascii) : occurs c characters = in_alphabet c.
Proof.
  destruct c as [b0 b1 b2 b3 b4 b5 b6 b7];
    destruct b0, b1, b2, b3, b4, b5, b6, b7; reflexivity.
Qed.

(** [Math.floor(Math.random() * characters.length)] is an index into
    [characters], the product being rounded to a double before its integer
    part is taken. *)
Lemma draw_index_range (r : Q) :
  JSNumber.is_double r -> (0 <= r)%Q -> (r < 1)%Q ->
  (0 <= Math_floor (JSNumber.mul r (inject_Z (JS.length characters)))
   < JS.length characters)%Z.
Proof.
  intros Hd Hlo Hhi. change (JS.length characters) with 65%Z.
  now apply mul_65_range.
Qed.

Lemma get_occurs (s : string) (n : nat) (c : ascii) :
  String.get n s = Some c -> occurs c s = true.
Proof.
  revert n. induction s as [|d s IH]; intros n H; simpl in *.
  - discriminate.
  - destruct n as [|n].
    + injection H as ->. now rewrite Ascii.eqb_refl.
    + rewrite (IH _ H). apply orb_true_r.
Qed.

Lemma get_in_range (s : string) (n : nat) :
  (n < String.length s)%nat -> exists c, String.get n s = Some c.
Proof.
  revert n. induction s as [|d s IH]; intros n H; simpl in *.
  - lia.
  - destruct n as [|n]; [now exists d|]. apply IH. lia.
Qed.

(** Within range, [charAt] yields one character of the string. *)
Lemma charAt_in_range (s : string) (k : Z) :
  (0 <= k < JS.length s)%Z ->
  exists c, JS.charAt s k = String c EmptyString /\ occurs c s = true.
Proof.
  intros [Hlo Hhi]. unfold JS.charAt, JS.length in *.
  destruct (Z.ltb_spec k 0); [lia|].
  destruct (get_in_range s (Z.to_nat k)) as [c Hc]; [lia|].
  rewrite Hc. exists c. split; [reflexivity|]. eapply get_occurs; eauto.
Qed.

Lemma length_append (a b : string) :
  String.length (a ++ b) = (String.length a + String.length b)%nat.
Proof. induction a as [|c a IH]; simpl; [reflexivity | now rewrite IH]. Qed.

Lemma all_chars_append (p : ascii -> bool) (a b : string) :
  all_chars p (a ++ b) = all_chars p a && all_chars p b.
Proof.
  induction a as [|c a IH]; simpl; [reflexivity|].
  now rewrite IH, andb_assoc.
Qed.

Lemma unit_interval_next (g : Rng) :
  unit_interval g -> unit_interval (snd (Math_random g)).
Proof. intros H n. exact (H n). Qed.

(** One iteration of the loop. *)
Lemma createRandomString_loop_S (fuel : nat) (length i : Z)
      (result : string) (g : Rng) :
  createRandomString_loop (S fuel) length i result g
  = if (i <? length)%Z then
      createRandomString_loop fuel length (i + 1)
        (result ++ JS.charAt characters
           (Math_floor
              (JSNumber.mul (draws g (cursor g))
                 (inject_Z (JS.length characters)))))%string
        (snd (Math_random g))
    else (result, g).
Proof. reflexivity. Qed.

(** The loop, started at [i <= length] with enough fuel, appends
    [length - i] characters of the alphabet and takes as many draws. *)
Lemma createRandomString_loop_spec (fuel : nat) :
  forall (length i : Z) (result : string) (g : Rng),
    unit_interval g ->
    (i <= length)%Z ->
    (Z.to_nat (length - i) <= fuel)%nat ->
    String.length (fst (createRandomString_loop fuel length i result g))
      = (String.length result + Z.to_nat (length - i))%nat
    /\ all_chars in_alphabet
         (fst (createRandomString_loop fuel length i result g))
       = all_chars in_alphabet result
    /\ cursor (snd (createRandomString_loop fuel length i result g))
       = (cursor g + Z.to_nat (length - i))%nat
    /\ draws (snd (createRandomString_loop fuel length i result g))
       = draws g.
Proof.
  induction fuel as [|fuel IH]; intros length i result g Hg Hi Hfuel.
  - replace (Z.to_nat (length - i)) with 0%nat by lia.
    cbn [createRandomString_loop fst snd]. rewrite !Nat.add_0_r. auto.
  - rewrite createRandomString_loop_S.
    destruct (Z.ltb_spec i length) as [Hlt|Hge].
    + destruct (draw_index_range (draws g (cursor g))) as [Hk0 Hk1];
        [apply Hg | apply Hg | apply Hg |].
      destruct (charAt_in_range characters _ (conj Hk0 Hk1))
        as [c [Hc Hocc]].
      rewrite Hc.
      destruct (IH length (i + 1)%Z (result ++ String c EmptyString)%string
                  (snd (Math_random g)) (unit_interval_next g Hg))
        as [Hlen [Hall [Hcur Hdraws]]]; [lia | lia |].
      rewrite Hlen, Hall, Hcur, Hdraws.
      rewrite length_append, all_chars_append.
      cbn [all_chars String.length Math_random snd cursor draws].
      rewrite characters_alphabet in Hocc. rewrite Hocc, !andb_true_r.
      repeat split; lia.
    + replace (Z.to_nat (length - i)) with 0%nat by lia.
      cbn [fst snd]. rewrite !Nat.add_0_r. auto.
Qed.

(** Fuel beyond [length] iterations is never used. *)
Lemma createRandomString_loop_fuel (fuel extra : nat) :
  forall (length i : Z) (result : string) (g : Rng),
    (Z.to_nat (length - i) <= fuel)%nat ->
    createRandomString_loop (fuel + extra) length i result g
    = createRandomString_loop fuel length i result g.
Proof.
  induction fuel as [|fuel IH]; intros length i result g Hfuel.
  - simpl. destruct extra as [|extra]; [reflexivity|]. simpl.
    destruct (Z.ltb_spec i length); [lia | reflexivity].
  - simpl. destruct (Z.ltb_spec i length); [|reflexivity].
    apply IH. lia.
Qed.

(** The draws 0.5, 0 and 63/64 select the characters at 32, 0 and 63. *)
Example createRandomString_run :
  fst (createRandomString 3
         (mkRng (fun n => match n with
                          | 0%nat => 1 # 2
                          | 1%nat => 0
                          | _ => 63 # 64
                          end)%Q 0))
  = "gA-".
Proof. vm_compute. reflexivity. Qed.

(** The product is rounded before its integer part is taken: for the draw
    2563587480195513 / 2^52 the product with 65 lies below 37 and the
    double nearest to it is 37, which selects the character at 37 and not
    the one at 36. *)
Example createRandomString_rounds :
  (Qfloor ((2563587480195513 # 4503599627370496) * 65) = 36)%Z
  /\ JSNumber.is_double (2563587480195513 # 4503599627370496)
  /\ fst (createRandomString 1
            (mkRng (fun _ => 2563587480195513 # 4503599627370496)%Q 0))
     = "l".
Proof. vm_compute. repeat split. Qed.

(** C10: for every non-negative integer [length] and every sequence of
    random draws, doubles in [0, 1), [createRandomString length] returns a
    string of
    exactly [length] characters, each of them from the alphabet; the
    alphabet has 65 characters and consists of the ASCII letters, the
    digits, underscore, hyphen and dollar sign. *)
Theorem createRandomString_length_alphabet (length : Z) (g : Rng) :
  (0 <= length)%Z ->
  unit_interval g ->
  JS.length (fst (createRandomString length g)) = length
  /\ all_chars in_alphabet (fst (createRandomString length g)) = true
  /\ JS.length characters = 65%Z
  /\ (forall c, occurs c characters = in_alphabet c).
Proof.
  intros Hlen Hg. unfold createRandomString.
  destruct (createRandomString_loop_spec (Z.to_nat length) length 0 "" g)
    as [Hl [Ha _]]; [assumption | lia | lia |].
  unfold JS.length at 1. rewrite Hl, Ha. cbn [String.length all_chars].
  repeat split; [lia | exact characters_alphabet].
Qed.

Lemma createRandomString_length_alphabet_witness :
  (0 <= 3)%Z
  /\ unit_interval (mkRng (fun _ => (1 # 2)%Q) 0)
  /\ JS.length (fst (createRandomString 3 (mkRng (fun _ => (1 # 2)%Q) 0))) = 3%Z
  /\ all_chars in_alphabet
       (fst (createRandomString 3 (mkRng (fun _ => (1 # 2)%Q) 0))) = true
  /\ JS.length characters = 65%Z
  /\ (forall c, occurs c characters = in_alphabet c).
Proof.
  assert (H0 : (0 <= 3)%Z) by lia.
  assert (H1 : unit_interval (mkRng (fun _ => (1 # 2)%Q) 0)).
  { intros n. vm_compute. repeat split; discriminate. }
  split; [exact H0|]. split; [exact H1|].
  exact (createRandomString_length_alphabet 3 _ H0 H1).
Defined.

(** The call consumes exactly [length] draws. *)
Lemma createRandomString_draws (length : Z) (g : Rng) :
  (0 <= length)%Z ->
  unit_interval g ->
  cursor (snd (createRandomString length g))
  = (cursor g + Z.to_nat length)%nat.
Proof.
  intros Hlen Hg. unfold createRandomString.
  destruct (createRandomString_loop_spec (Z.to_nat length) length 0 "" g)
    as [_ [_ [Hc _]]]; [assumption | lia | lia |].
  rewrite Hc. f_equal. f_equal. lia.
Qed.

End UtilsFacts.

(** ** The collection manager *)

Section CollectionFacts.
Import Effect Collection.

Variable remote : Request -> Promise JS.value.

(** The request [insert] builds for a body [docs]. *)
Lemma insert_request (this : CollectionManager) (documents : JS.value)
      (log : Network) :
  let docs :=
    if JS.isArray documents then documents else JS.VArr [documents] in
  let r := mkRequest
             ("/v1/collections/" ++ this_collectionID this ++ "/insert")
             (Some (DocumentsBody docs)) POST write in
  insert remote this documents log = (Return (await_void (remote r)), log ++ [r]).
Proof. destruct documents; reflexivity. Qed.

(** C8: whatever [insert] is given, a single document or an array of
    documents, it hands exactly one request to the write endpoint and the
    body of that request is an array: a document [d] that is not an array
    is sent as [[d]], an array is sent as it is. *)
Theorem insert_sends_array (this : CollectionManager) (documents : JS.value)
        (log : Network) :
  exists docs : JS.value,
    snd (insert remote this documents log)
    = log ++ [mkRequest
                ("/v1/collections/" ++ this_collectionID this ++ "/insert")
                (Some (DocumentsBody docs)) POST write]
    /\ JS.isArray docs = true
    /\ (JS.isArray documents = false -> docs = JS.VArr [documents])
    /\ (JS.isArray documents = true -> docs = documents).
Proof.
  rewrite insert_request. cbn [snd].
  exists (if JS.isArray documents then documents else JS.VArr [documents]).
  split; [reflexivity|].
  destruct (JS.isArray documents) eqn:E; repeat split;
    auto; discriminate.
Qed.

Example insert_single_document :
  snd (insert remote (newCollectionManager
                        (mkCollectionManagerConfig "u" "c" (Some "w") None))
         (JS.VObj [("title", JS.VStr "a")]) [])
  = [mkRequest "/v1/collections/c/insert"
       (Some (DocumentsBody (JS.VArr [JS.VObj [("title", JS.VStr "a")]])))
       POST write].
Proof. reflexivity. Qed.

Example insert_array_of_documents :
  snd (insert remote (newCollectionManager
                        (mkCollectionManagerConfig "u" "c" (Some "w") None))
         (JS.VArr [JS.VObj []; JS.VObj []]) [])
  = [mkRequest "/v1/collections/c/insert"
       (Some (DocumentsBody (JS.VArr [JS.VObj []; JS.VObj []])))
       POST write].
Proof. reflexivity. Qed.

(** [!x] on an optional string holds exactly when [x] is absent or
    empty. *)
Lemma truthy_false (x : option string) :
  JS.truthy x = false <-> x = None \/ x = Some "".
Proof.
  destruct x as [[|c s]|]; simpl; split; intros H; auto;
    try discriminate; destruct H; discriminate.
Qed.

Lemma truthy_true (x : option string) :
  JS.truthy x = true <-> exists s, x = Some s /\ s <> "".
Proof.
  destruct x as [[|c s]|]; simpl; split; intros H;
    try discriminate; try reflexivity.
  - destruct H as [s [[= <-] Hs]]. now elim Hs.
  - exists (String c s). split; [reflexivity | discriminate].
  - destruct H as [s [H _]]. discriminate.
Qed.

(** C9: a trigger body whose [segment_id] is absent or empty makes
    [insertTrigger] throw synchronously, with no request handed to the
    collaborator; with a non-empty [segment_id] the request is issued,
    carrying the trigger as its body. *)
Theorem insertTrigger_requires_segment_id (this : CollectionManager)
        (trigger : InsertTriggerBody) (log : Network) :
  (segment_id trigger = None \/ segment_id trigger = Some "" ->
   insertTrigger remote this trigger log
   = (Throw (JS.Error "You cannot insert a trigger without a segment_id"),
      log))
  /\ (forall s, segment_id trigger = Some s -> s <> "" ->
      let r := mkRequest
                 ("/v1/collections/" ++ this_collectionID this
                  ++ "/triggers/insert")
                 (Some (TriggerBody trigger)) POST write in
      insertTrigger remote this trigger log
      = (Return (remote r), log ++ [r])).
Proof.
  split.
  - intros H. apply truthy_false in H. unfold insertTrigger.
    now rewrite H.
  - intros s Hs Hne.
    assert (H : JS.truthy (segment_id trigger) = true).
    { apply truthy_true. eauto. }
    unfold insertTrigger. now rewrite H.
Qed.

Example insertTrigger_without_segment_id :
  insertTrigger remote
    (newCollectionManager (mkCollectionManagerConfig "u" "c" (Some "w") None))
    (mkInsertTriggerBody None [("name", JS.VStr "t")]) []
  = (Throw (JS.Error "You cannot insert a trigger without a segment_id"), []).
Proof. reflexivity. Qed.

Example insertTrigger_with_segment_id :
  snd (insertTrigger remote
         (newCollectionManager
            (mkCollectionManagerConfig "u" "c" (Some "w") None))
         (mkInsertTriggerBody (Some "s1") []) [])
  = [mkRequest "/v1/collections/c/triggers/insert"
       (Some (TriggerBody (mkInsertTriggerBody (Some "s1") []))) POST write].
Proof. reflexivity. Qed.

End CollectionFacts.

Section AnswerSessionCreation.
Import Effect Collection.

(** A manager built with the empty string as its read API key is one
    without a key: the guard turns it away with the message that a key is
    required, as it does when none was given. *)
Example createAnswerSession_empty_key :
  createAnswerSession
    (newCollectionManager
       (mkCollectionManagerConfig "https://host" "c" None (Some "")))
    None []
  = (Throw (JS.Error "Read API key is required to create an answer session"),
     []).
Proof. reflexivity. Qed.

(** C1: for every manager constructed without a read API key, none given
    or the empty string, which the manager takes for none,
    [createAnswerSession] throws synchronously and no request has gone
    out; for every manager holding a read API key it returns a session,
    bound to the manager's url, key and collection, with an empty store,
    and again no request has gone out. *)
Theorem createAnswerSession_requires_read_key
        (config : CollectionManagerConfig)
        (options : option CreateAnswerSessionConfig) (log : Network) :
  (config_readAPIKey config = None \/ config_readAPIKey config = Some "" ->
   createAnswerSession (newCollectionManager config) options log
   = (Throw (JS.Error "Read API key is required to create an answer session"),
      log))
  /\ (forall key, config_readAPIKey config = Some key -> key <> "" ->
      exists session,
        createAnswerSession (newCollectionManager config) options log
        = (Return session, log)
        /\ Session.url (Session.config session) = config_url config
        /\ Session.readAPIKey (Session.config session) = key
        /\ Session.collectionID (Session.config session)
           = config_collectionID config
        /\ Session.interactions session = []
        /\ Session.activeHandle session = None).
Proof.
  split.
  - intros H. unfold createAnswerSession, newCollectionManager.
    cbn [this_readAPIKey].
    apply truthy_false in H. now rewrite H.
  - intros key Hk Hne. unfold createAnswerSession, newCollectionManager.
    cbn [this_readAPIKey this_url this_collectionID]. rewrite Hk.
    destruct key as [|c key]; [now elim Hne|].
    cbn. eexists. split; [reflexivity|]. cbn. repeat split.
Qed.

Example createAnswerSession_without_key :
  fst (createAnswerSession
         (newCollectionManager
            (mkCollectionManagerConfig "https://host" "c" (Some "w") None))
         None [])
  = Throw (JS.Error "Read API key is required to create an answer session").
Proof. reflexivity. Qed.

Example createAnswerSession_with_key :
  completes
    (fst (createAnswerSession
            (newCollectionManager
               (mkCollectionManagerConfig "https://host" "c" None
                  (Some "read-key")))
            None []))
  = true.
Proof. reflexivity. Qed.

End AnswerSessionCreation.

(** ** The Interaction Store *)

Section StoreFacts.
Import Session.

Context {A : Type}.

Lemma last_opt_app (l : list A) (x : A) : last_opt (l ++ [x]) = Some x.
Proof.
  induction l as [|y l IH]; [reflexivity|].
  cbn [app last_opt]. destruct (l ++ [x]) eqn:E; [|exact IH].
  destruct l; discriminate.
Qed.

Lemma update_last_app (f : A -> A) (l : list A) (x : A) :
  update_last f (l ++ [x]) = l ++ [f x].
Proof.
  induction l as [|y l IH]; [reflexivity|].
  cbn [app update_last]. destruct (l ++ [x]) eqn:E.
  - destruct l; discriminate.
  - now rewrite IH.
Qed.

(** A store with a last element splits around it. *)
Lemma last_opt_Some (l : list A) (x : A) :
  last_opt l = Some x -> exists earlier, l = earlier ++ [x].
Proof.
  induction l as [|y l IH]; [discriminate|].
  cbn [last_opt]. destruct l as [|z l].
  - intros [= ->]. now exists [].
  - intros H. destruct (IH H) as [earlier ->]. now exists (y :: earlier).
Qed.

Lemma last_opt_None (l : list A) : last_opt l = None <-> l = [].
Proof.
  split; [|now intros ->].
  induction l as [|y l IH]; [reflexivity|].
  cbn [last_opt]. destruct l; [discriminate|].
  intros H. specialize (IH H). discriminate.
Qed.

Lemma app_singleton_inj (l l' : list A) (x x' : A) :
  l ++ [x] = l' ++ [x'] -> l = l' /\ x = x'.
Proof. intros H. apply app_inj_tail in H. exact H. Qed.

Lemma set_nth_length (n : nat) (x : A) (l : list A) :
  List.length (set_nth n x l) = List.length l.
Proof.
  revert n. induction l as [|y l IH]; intros [|n]; cbn; auto.
Qed.

Lemma set_nth_same (n : nat) (x y : A) (l : list A) :
  nth_error l n = Some y -> nth_error (set_nth n x l) n = Some x.
Proof.
  revert n. induction l as [|z l IH]; intros [|n]; cbn; try discriminate; auto.
Qed.

Lemma set_nth_other (n m : nat) (x : A) (l : list A) :
  n <> m -> nth_error (set_nth n x l) m = nth_error l m.
Proof.
  revert n m. induction l as [|z l IH]; intros [|n] [|m] H; cbn; auto.
  now elim H.
Qed.

End StoreFacts.

(** ** Fragments and their concatenation *)

Section FragmentFacts.

Lemma append_assoc (a b c : string) : ((a ++ b) ++ c = a ++ (b ++ c))%string.
Proof. induction a as [|x a IH]; cbn; [reflexivity | now rewrite IH]. Qed.

Lemma append_empty_r (a : string) : (a ++ "")%string = a.
Proof. induction a as [|x a IH]; cbn; [reflexivity | now rewrite IH]. Qed.



End FragmentFacts.

(** ** The answer session *)

(** Unfolds the calls of the session down to the state they leave. *)
Ltac session_unfold :=
  cbv [Session.dispatch Session.ask Session.abort Session.regenerateLast
       Session.startQueued Session.startAsk Session.createInteraction
       Session.beginStreaming Session.onFragment Session.onSources
       Session.onStreamEnd Session.onTransportFailure Session.onPlan
       Session.onStepStart Session.onStepResult Session.whenInFlight
       Session.mutateLast Session.release Session.notify
       Effect.bind Effect.get Effect.modify Effect.ret Effect.throw].

(** Reads fields, and writes them, on records given by their fields. *)
Ltac fields :=
  cbn [fst snd option_map
       Session.config Session.messages Session.interactions Session.queue
       Session.activeHandle Session.nextId Session.notifications
       Session.set_interactions Session.set_queue Session.set_activeHandle
       Session.set_nextId Session.set_notifications
       Session.id Session.query Session.response Session.sources
       Session.state Session.plan Session.aborted
       Session.set_response Session.set_sources Session.set_state
       Session.set_plan Session.set_aborted Session.freshInteraction].

Ltac store := rewrite ?update_last_app, ?last_opt_app.

Ltac session_step := session_unfold; fields; store; fields.

(** Closes the goals of an event that left the session as it was. *)
Ltac unchanged := split; [now apply Session.transition_none | reflexivity].

Section SessionFacts.
Import Effect Session.

Variable parseArguments : string -> option JS.value.

Lemma all_terminal_app (l : list Interaction) (x : Interaction) :
  all_terminal l -> terminal (state x) = true -> all_terminal (l ++ [x]).
Proof.
  intros Hl Hx. apply Forall_app. split; [exact Hl | now constructor].
Qed.

(** *** What one event does *)

Lemma ask_transition (q : string) (s : AnswerSession) :
  transition s (snd (ask q s)) /\ config (snd (ask q s)) = config s.
Proof.
  destruct s as [cfg msgs ints qu h n nots]. session_step.
  destruct (readAPIKey cfg =? "")%string; fields; [unchanged|].
  destruct (String.eqb_spec q ""); fields; [unchanged|].
  destruct h as [h|]; session_step; (split; [|reflexivity]).
  - now apply (transition_enqueue _ _ q).
  - apply (transition_start _ _ q); fields; auto.
Qed.

(** The part of [consistent] about a session that holds a handle. *)
Lemma consistent_in_flight (s : AnswerSession) (h : nat) :
  consistent s -> activeHandle s = Some h ->
  exists earlier current,
    interactions s = earlier ++ [current]
    /\ all_terminal earlier /\ id current = h /\ state current = streaming.
Proof. intros (_ & _ & _ & Hh) Ha. now rewrite Ha in Hh. Qed.

Lemma dispatch_transition (ev : Event) (s : AnswerSession) :
  consistent s ->
  transition s (snd (dispatch parseArguments ev s))
  /\ config (snd (dispatch parseArguments ev s)) = config s.
Proof.
  intros Hs.
  destruct ev; cbn [dispatch]; try exact (ask_transition _ _).
  2: { (* regenerateLast *)
    unfold regenerateLast, bind, get. fields.
    destruct (last_opt (interactions s)) as [i|];
      [exact (ask_transition _ _) | unchanged]. }
  2: { (* startQueued *)
    destruct Hs as (_ & _ & Hqu & _).
    destruct s as [cfg msgs ints qu [h|] n nots]; cbn in Hqu;
      session_step; [unchanged|].
    destruct qu as [|q rest]; session_step; [unchanged|].
    split; [|reflexivity].
    apply (transition_start _ _ q); fields; auto.
    now inversion Hqu. }
  (* abort, and what the transport delivers: nothing happens without a
     request in flight; with one, the store ends with the Interaction the
     event works on *)
  all: destruct (activeHandle s) as [h|] eqn:Ha;
    [ destruct (consistent_in_flight s h Hs Ha)
        as (earlier & current & Hi & _)
    | ];
    destruct s as [cfg msgs ints qu h' n nots]; cbn in Ha; subst h';
    [ cbn in Hi; subst ints; session_step
    | session_step; unchanged ].
  - (* abort *)
    split; [|reflexivity].
    eapply transition_finish; fields; eauto; discriminate.
  - (* a fragment *)
    split; [|reflexivity].
    eapply transition_progress; fields; eauto; discriminate.
  - (* sources *)
    split; [|reflexivity].
    eapply transition_progress; fields; eauto; discriminate.
  - (* a plan is declared *)
    split; [|reflexivity].
    eapply transition_progress; fields; eauto; try discriminate;
      destruct (plan current); reflexivity.
  - (* a step starts *)
    split; [|reflexivity].
    eapply transition_progress; fields; eauto; try discriminate;
      destruct (plan current); reflexivity.
  - (* a step is resolved *)
    destruct (plan current) as [p|]; fields; [|unchanged].
    destruct (runStep parseArguments p o) as [[p' []]|]; session_step;
      [| | | unchanged]; (split; [|reflexivity]).
    + eapply transition_progress; fields; eauto; discriminate.
    + eapply transition_finish; fields; eauto; discriminate.
    + eapply transition_finish; fields; eauto; discriminate.
  - (* the stream ends *)
    split; [|reflexivity].
    eapply transition_finish; fields; eauto; discriminate.
  - (* the transport fails *)
    split; [|reflexivity].
    eapply transition_finish; fields; eauto; discriminate.
Qed.

(** *** The invariant *)

Lemma transition_consistent (s s' : AnswerSession) :
  consistent s -> config s' = config s -> transition s s' -> consistent s'.
Proof.
  intros (Hkey & Hq & Hqu & Hh) Hcfg Ht. unfold consistent. rewrite Hcfg.
  destruct Ht as [Hi Ha Hu | q Hne Hi Ha Hu | q Hne Hnone Hi Ha Hu
                 | earlier cur cur' Hi Hi' Hid Hqy Hst Hact Ha Hu
                 | earlier cur cur' Hi Hi' Hid Hqy Hst Hact Ha Hu].
  - rewrite Hi, Ha, Hu. auto.
  - rewrite Hi, Ha, Hu. repeat split; auto.
    apply Forall_app. split; [assumption | now constructor].
  - rewrite Hi, Ha. rewrite Hnone in Hh. repeat split; auto.
    + apply Forall_app. split; [assumption | now constructor].
    + destruct Hu as [-> | Hu]; [assumption|].
      rewrite Hu in Hqu. now inversion Hqu.
    + eexists _, _. repeat split; eauto.
  - rewrite Hi', Ha, Hu. rewrite Hi in Hq, Hh.
    apply Forall_app in Hq as [Hq1 Hq2]. repeat split; auto.
    + apply Forall_app. split; [assumption|]. constructor; [|constructor].
      rewrite Hqy. now inversion Hq2.
    + destruct (activeHandle s) as [h|]; [|now elim Hact].
      destruct Hh as (e & c & He & Hte & Hidc & Hstc).
      apply app_inj_tail in He as [<- <-].
      exists earlier, cur'. repeat split; auto; congruence.
  - rewrite Hi', Ha, Hu. rewrite Hi in Hq, Hh.
    apply Forall_app in Hq as [Hq1 Hq2]. repeat split; auto.
    + apply Forall_app. split; [assumption|]. constructor; [|constructor].
      rewrite Hqy. now inversion Hq2.
    + apply all_terminal_app; [|assumption].
      destruct (activeHandle s) as [h|]; [|now elim Hact].
      destruct Hh as (e & c & He & Hte & _).
      apply app_inj_tail in He as [<- _]. assumption.
Qed.

Lemma new_consistent (cfg : AnswerSessionConfig) (s : AnswerSession) :
  newAnswerSession cfg = Return s -> consistent s.
Proof.
  unfold newAnswerSession.
  destruct (String.eqb_spec (readAPIKey cfg) ""); [discriminate|].
  intros [= <-]. repeat split; cbn; auto. constructor.
Qed.

Lemma dispatch_consistent (ev : Event) (s : AnswerSession) :
  consistent s -> consistent (snd (dispatch parseArguments ev s)).
Proof.
  intros Hs. destruct (dispatch_transition ev s Hs) as [Ht Hc].
  eapply transition_consistent; eauto.
Qed.

(** Every session a caller can observe is consistent. *)
Lemma reachable_consistent (s : AnswerSession) :
  reachable parseArguments s -> consistent s.
Proof.
  induction 1 as [cfg s Hnew | s ev Hr IH].
  - eapply new_consistent; eauto.
  - now apply dispatch_consistent.
Qed.

Lemma reachable_run (evs : list Event) :
  forall s, reachable parseArguments s ->
            reachable parseArguments (run parseArguments evs s).
Proof.
  induction evs as [|ev evs IH]; intros s Hs; cbn [run]; [assumption|].
  apply IH. now apply reachable_step.
Qed.

(** *** Forward moves *)

Lemma state_forward_refl (a : InteractionState) : state_forward a a.
Proof. now left. Qed.

Lemma state_forward_trans (a b c : InteractionState) :
  state_forward a b -> state_forward b c -> state_forward a c.
Proof.
  unfold state_forward. intros [-> | H1] [-> | H2]; auto. right. lia.
Qed.

(** Nothing leads out of a terminal state. *)
Lemma state_forward_terminal (a b : InteractionState) :
  terminal a = true -> state_forward a b -> b = a.
Proof.
  intros Ha [-> | Hlt]; [reflexivity|].
  destruct a, b; cbn in *; try discriminate; lia.
Qed.

Lemma forward_refl (l : list Interaction) : forward l l.
Proof. induction l; cbn; auto using state_forward_refl. Qed.

Lemma forward_trans (l1 : list Interaction) :
  forall l2 l3, forward l1 l2 -> forward l2 l3 -> forward l1 l3.
Proof.
  induction l1 as [|a l1 IH]; intros [|b l2] [|c l3]; cbn; auto; try tauto.
  intros (Hid & Hq & Hs & Hf) (Hid' & Hq' & Hs' & Hf').
  repeat split; try congruence.
  - eapply state_forward_trans; eauto.
  - eapply IH; eauto.
Qed.

Lemma forward_app (l extra : list Interaction) : forward l (l ++ extra).
Proof. induction l; cbn; auto using state_forward_refl. Qed.

Lemma forward_last (earlier : list Interaction) (a b : Interaction) :
  id a = id b -> query a = query b -> state_forward (state a) (state b) ->
  forward (earlier ++ [a]) (earlier ++ [b]).
Proof. intros. induction earlier; cbn; auto using state_forward_refl. Qed.

(** [forward], position by position. *)
Lemma forward_nth (old : list Interaction) :
  forall new k i,
    forward old new -> nth_error old k = Some i ->
    exists i', nth_error new k = Some i'
               /\ id i' = id i /\ query i' = query i
               /\ state_forward (state i) (state i').
Proof.
  induction old as [|a old IH]; intros [|b new] [|k] i Hf Hk;
    cbn in *; try discriminate; try tauto.
  - injection Hk as <-. destruct Hf as (Hid & Hq & Hs & _).
    exists b. auto.
  - destruct Hf as (_ & _ & _ & Hf). eapply IH; eauto.
Qed.

Lemma transition_forward (s s' : AnswerSession) :
  consistent s -> transition s s' ->
  forward (interactions s) (interactions s').
Proof.
  intros (Hkey & Hq & Hqu & Hh) Ht.
  destruct Ht as [Hi Ha Hu | q Hne Hi Ha Hu | q Hne Hnone Hi Ha Hu
                 | earlier cur cur' Hi Hi' Hid Hqy Hst Hact Ha Hu
                 | earlier cur cur' Hi Hi' Hid Hqy Hst Hact Ha Hu].
  - rewrite Hi. apply forward_refl.
  - rewrite Hi. apply forward_refl.
  - rewrite Hi. apply forward_app.
  - rewrite Hi, Hi'. apply forward_last; auto.
    rewrite Hst. apply state_forward_refl.
  - rewrite Hi, Hi'. apply forward_last; auto.
    rewrite Hi in Hh. destruct (activeHandle s) as [h|]; [|now elim Hact].
    destruct Hh as (e & c & He & _ & _ & Hstc).
    apply app_inj_tail in He as [_ <-]. right. rewrite Hstc.
    destruct (state cur'); cbn in *; try discriminate; lia.
Qed.

Lemma run_forward (evs : list Event) :
  forall s, consistent s ->
            forward (interactions s)
              (interactions (run parseArguments evs s)).
Proof.
  induction evs as [|ev evs IH]; intros s Hs; cbn [run].
  - apply forward_refl.
  - destruct (dispatch_transition ev s Hs) as [Ht Hc].
    eapply forward_trans.
    + eapply transition_forward; eauto.
    + apply IH. eapply transition_consistent; eauto.
Qed.

(** *** Monotonic states *)

(** Inside [ask]: the Interaction is created pending, then moved to
    streaming. *)
Lemma startAsk_steps (q : string) (s : AnswerSession) :
  interactions (snd (createInteraction q s))
  = interactions s ++ [freshInteraction (nextId s) q]
  /\ snd (startAsk q s) = snd (beginStreaming (snd (createInteraction q s)))
  /\ interactions (snd (startAsk q s))
     = interactions s ++ [set_state streaming (freshInteraction (nextId s) q)]
  /\ activeHandle (snd (startAsk q s)) = Some (nextId s)
  /\ config (snd (startAsk q s)) = config s
  /\ queue (snd (startAsk q s)) = queue s.
Proof.
  destruct s as [cfg msgs ints qu h n nots]. session_step. repeat split.
Qed.

(** C3: for every Interaction of a session and every sequence of session
    operations (ask, fragment arrival, plan step transition, abort, error,
    ...), the Interaction stays where it is in the store, keeps its
    identity, and its state either stays or moves to a later position in
    the order pending, streaming, done/error; in particular a terminal
    state never changes.  Inside an ask the new Interaction goes from
    pending to streaming, a forward move too. *)
Theorem interaction_state_monotonic (s : AnswerSession) (evs : list Event) :
  reachable parseArguments s ->
  (forall k i,
      nth_error (interactions s) k = Some i ->
      exists i',
        nth_error (interactions (run parseArguments evs s)) k = Some i'
        /\ id i' = id i
        /\ state_forward (state i) (state i')
        /\ (terminal (state i) = true -> state i' = state i))
  /\ (forall q,
        forward (interactions s) (interactions (snd (createInteraction q s)))
        /\ forward (interactions (snd (createInteraction q s)))
             (interactions (snd (startAsk q s)))).
Proof.
  intros Hr. split.
  - intros k i Hk.
    destruct (forward_nth _ _ k i
                (run_forward evs s (reachable_consistent s Hr)) Hk)
      as (i' & Hk' & Hid & _ & Hf).
    exists i'. repeat split; auto.
    intros Ht. now apply state_forward_terminal.
  - intros q. destruct (startAsk_steps q s) as (Hc & _ & Hb & _).
    rewrite Hc, Hb. split; [apply forward_app|].
    apply forward_last; fields; auto. right. cbn. lia.
Qed.

(** *** abort *)

Lemma all_terminal_last (l : list Interaction) (i : Interaction) :
  all_terminal l -> last_opt l = Some i -> terminal (state i) = true.
Proof.
  intros Hl Hi. apply last_opt_Some in Hi as [earlier ->].
  apply Forall_app in Hl as [_ Hl]. now inversion Hl.
Qed.

(** With nothing in flight [abort] does nothing. *)
Lemma abort_idle (s : AnswerSession) :
  activeHandle s = None -> abort s = (Return tt, s).
Proof.
  destruct s as [cfg msgs ints qu h n nots]; cbn. intros ->. reflexivity.
Qed.

(** With a request in flight [abort] closes the active Interaction: done,
    flagged aborted, its response as accumulated. *)
Lemma abort_active (s : AnswerSession) (h : nat)
      (earlier : list Interaction) (current : Interaction) :
  activeHandle s = Some h ->
  interactions s = earlier ++ [current] ->
  fst (abort s) = Return tt
  /\ interactions (snd (abort s))
     = earlier ++ [set_state done (set_aborted true current)]
  /\ activeHandle (snd (abort s)) = None.
Proof.
  destruct s as [cfg msgs ints qu h' n nots]; cbn. intros -> ->.
  session_step. repeat split.
Qed.

(** C7: at any point of a session, with or without an active Interaction,
    [abort] returns normally, a second [abort] changes nothing, and after
    it every Interaction of the store, the most recent one in particular,
    is in a terminal state and no request is in flight. *)
Theorem abort_safe (s : AnswerSession) :
  reachable parseArguments s ->
  fst (abort s) = Return tt
  /\ abort (snd (abort s)) = (Return tt, snd (abort s))
  /\ all_terminal (interactions (snd (abort s)))
  /\ (forall i, last_opt (interactions (snd (abort s))) = Some i ->
                terminal (state i) = true)
  /\ activeHandle (snd (abort s)) = None.
Proof.
  intros Hr. pose proof (reachable_consistent s Hr) as Hs.
  assert (H : fst (abort s) = Return tt
              /\ all_terminal (interactions (snd (abort s)))
              /\ activeHandle (snd (abort s)) = None).
  { destruct (activeHandle s) as [h|] eqn:Ha.
    - destruct (consistent_in_flight s h Hs Ha)
        as (earlier & current & Hi & Hearlier & _).
      destruct (abort_active s h earlier current Ha Hi) as (H1 & H2 & H3).
      rewrite H2. repeat split; auto. now apply all_terminal_app.
    - rewrite (abort_idle s Ha). cbn [fst snd].
      destruct Hs as (_ & _ & _ & Hh). rewrite Ha in Hh. auto. }
  destruct H as (H1 & H2 & H3). repeat split; auto.
  - now apply abort_idle.
  - intros i. now apply all_terminal_last.
Qed.

(** *** regenerateLast *)

(** An ask the session accepts while nothing is in flight starts at
    once. *)
Lemma ask_starts (q : string) (s : AnswerSession) :
  readAPIKey (config s) <> "" -> q <> "" -> activeHandle s = None ->
  ask q s = (Return tt, snd (startAsk q s)).
Proof.
  intros Hkey Hq Ha. destruct s as [cfg msgs ints qu h n nots].
  cbn in Hkey, Ha. subst h. unfold ask, bind, get. fields.
  destruct (String.eqb_spec (readAPIKey cfg) ""); [contradiction|].
  destruct (String.eqb_spec q ""); [contradiction|]. reflexivity.
Qed.

(** C6: on a session whose store is empty [regenerateLast] fails with
    [InvalidStateError]; on a session whose most recent Interaction is
    terminal and has query X it returns normally and appends a new
    Interaction with query X to the store, the Interactions that were
    there, the prior one included, being left as they were. *)
Theorem regenerateLast_reissues (s : AnswerSession) :
  reachable parseArguments s ->
  (interactions s = [] ->
   regenerateLast s = (Throw JS.InvalidStateError, s))
  /\ (forall prior,
        last_opt (interactions s) = Some prior ->
        terminal (state prior) = true ->
        exists fresh,
          fst (regenerateLast s) = Return tt
          /\ interactions (snd (regenerateLast s))
             = interactions s ++ [fresh]
          /\ query fresh = query prior
          /\ response fresh = ""
          /\ state fresh = streaming
          /\ last_opt (removelast (interactions (snd (regenerateLast s))))
             = Some prior).
Proof.
  intros Hr. split.
  - intros He. unfold regenerateLast, bind, get. now rewrite He.
  - intros prior Hlast Hterm.
    pose proof (reachable_consistent s Hr) as (Hkey & Hq & _ & Hh).
    assert (Ha : activeHandle s = None).
    { destruct (activeHandle s) as [h|]; [|reflexivity].
      destruct Hh as (earlier & current & Hi & _ & _ & Hst).
      rewrite Hi, last_opt_app in Hlast. injection Hlast as <-.
      rewrite Hst in Hterm. discriminate. }
    assert (Hne : query prior <> "").
    { destruct (last_opt_Some _ _ Hlast) as [earlier Hi]. rewrite Hi in Hq.
      apply Forall_app in Hq as [_ Hq]. now inversion Hq. }
    assert (Hre : regenerateLast s = ask (query prior) s).
    { unfold regenerateLast, bind, get. now rewrite Hlast. }
    rewrite Hre, (ask_starts _ _ Hkey Hne Ha). cbn [fst snd].
    destruct (startAsk_steps (query prior) s) as (_ & _ & Hi & _).
    rewrite Hi.
    exists (set_state streaming (freshInteraction (nextId s) (query prior))).
    repeat split. now rewrite removelast_last.
Qed.

(** *** Streaming *)


(** An ask that returns normally while nothing is in flight has started
    its Interaction. *)
Lemma ask_accepted (q : string) (s : AnswerSession) :
  activeHandle s = None -> fst (ask q s) = Return tt ->
  snd (ask q s) = snd (startAsk q s).
Proof.
  destruct s as [cfg msgs ints qu h n nots]; cbn [activeHandle].
  intros ->. unfold ask, bind, get, throw. fields.
  destruct (readAPIKey cfg =? "")%string; [discriminate|].
  destruct (q =? "")%string; [discriminate | reflexivity].
Qed.






(** *** Failures of the transport *)


(** A delivery that finds no request in flight is dropped. *)
Lemma delivery_dropped (ev : Event) (s : AnswerSession) :
  fromTransport ev = true -> activeHandle s = None ->
  dispatch parseArguments ev s = (Return tt, s).
Proof.
  destruct s as [cfg msgs ints qu h n nots]; cbn [activeHandle].
  intros Hev ->. destruct ev; try discriminate; reflexivity.
Qed.



(** *** Failed plan steps *)

(** The executor on a current step that fails. *)
Lemma runStep_failed (p : PlanExecution) (st : Step) (o : StepOutcome) :
  nth_error (steps p) (currentStepIndex p) = Some st ->
  effectiveOutcome parseArguments st o = Failed ->
  runStep parseArguments p o
  = Some
      (if required st
       then (mkPlan (set_nth (currentStepIndex p)
                       (set_status step_failed st) (steps p))
               (currentStepIndex p),
             PlanAborted)
       else (mkPlan (set_nth (currentStepIndex p)
                       (set_status step_failed st) (steps p))
               (S (currentStepIndex p)),
             if (S (currentStepIndex p) =? List.length (steps p))%nat
             then PlanCompleted else PlanContinues)).
Proof.
  intros Hst Hout. unfold runStep, resolveStep. rewrite Hst, Hout.
  cbn [status set_status]. rewrite set_nth_length.
  destruct (required st); reflexivity.
Qed.

(** The session after the current step of the active plan failed. *)
Lemma stepResolved_failed (s : AnswerSession) (h : nat)
      (earlier : list Interaction) (current : Interaction)
      (p : PlanExecution) (st : Step) (o : StepOutcome) :
  activeHandle s = Some h ->
  interactions s = earlier ++ [current] ->
  plan current = Some p ->
  nth_error (steps p) (currentStepIndex p) = Some st ->
  effectiveOutcome parseArguments st o = Failed ->
  let steps' :=
    set_nth (currentStepIndex p) (set_status step_failed st) (steps p) in
  let moved :=
    set_plan (Some (mkPlan steps' (S (currentStepIndex p)))) current in
  interactions (snd (dispatch parseArguments (StepResolved o) s))
  = earlier
    ++ [if required st then
          set_state error
            (set_plan (Some (mkPlan steps' (currentStepIndex p))) current)
        else if (S (currentStepIndex p) =? List.length (steps p))%nat then
          set_state done
            (set_response (response moved ++ generationOutput steps') moved)
        else moved]
  /\ activeHandle (snd (dispatch parseArguments (StepResolved o) s))
     = (if required st then None
        else if (S (currentStepIndex p) =? List.length (steps p))%nat
             then None else Some h).
Proof.
  intros Ha Hi Hplan Hst Hout.
  pose proof (runStep_failed p st o Hst Hout) as Hrun.
  destruct s as [cfg msgs ints qu h' n nots]; cbn in Ha, Hi; subst h' ints.
  cbn [dispatch]. session_step. rewrite Hplan, Hrun.
  destruct (required st); [session_step; split; reflexivity|].
  destruct (S (currentStepIndex p) =? List.length (steps p))%nat;
    session_step; split; reflexivity.
Qed.

(** C4: when the current step of a plan fails, the step is marked failed;
    if it is flagged required the plan is aborted: the owning Interaction
    moves to error, [currentStepIndex] stays on the failed step, the
    request is released and no later delivery changes the session; if it
    is not flagged required the pointer moves past it as past a skipped
    step and the plan goes on: the Interaction stays in flight when steps
    remain, and is done when the failed step was the last one. *)
Theorem failed_step_policy (s : AnswerSession) (h : nat)
        (current : Interaction) (p : PlanExecution) (st : Step)
        (o : StepOutcome) :
  activeHandle s = Some h ->
  last_opt (interactions s) = Some current ->
  plan current = Some p ->
  nth_error (steps p) (currentStepIndex p) = Some st ->
  effectiveOutcome parseArguments st o = Failed ->
  exists after p',
    last_opt (interactions (snd (dispatch parseArguments (StepResolved o) s)))
    = Some after
    /\ plan after = Some p'
    /\ nth_error (steps p') (currentStepIndex p)
       = Some (set_status step_failed st)
    /\ (required st = true ->
        state after = error
        /\ currentStepIndex p' = currentStepIndex p
        /\ activeHandle (snd (dispatch parseArguments (StepResolved o) s))
           = None
        /\ forall ev, fromTransport ev = true ->
             snd (dispatch parseArguments ev
                    (snd (dispatch parseArguments (StepResolved o) s)))
             = snd (dispatch parseArguments (StepResolved o) s))
    /\ (required st = false ->
        currentStepIndex p' = S (currentStepIndex p)
        /\ (S (currentStepIndex p) < List.length (steps p) ->
            state after = state current
            /\ activeHandle
                 (snd (dispatch parseArguments (StepResolved o) s))
               = Some h)
        /\ (S (currentStepIndex p) = List.length (steps p) ->
            state after = done)).
Proof.
  intros Ha Hlast Hplan Hst Hout.
  destruct (last_opt_Some _ _ Hlast) as [earlier Hi].
  destruct (stepResolved_failed s h earlier current p st o
              Ha Hi Hplan Hst Hout) as [Hi' Ha'].
  cbv zeta in Hi'. rewrite Hi', last_opt_app.
  pose proof (set_nth_same (currentStepIndex p)
                (set_status step_failed st) st (steps p) Hst) as Hnth.
  destruct (required st) eqn:Hreq.
  - (* required: the plan is aborted *)
    eexists _, _. split; [reflexivity|]. fields.
    split; [reflexivity|]. cbn [steps currentStepIndex].
    split; [exact Hnth|]. split; [|discriminate]. intros _.
    repeat split; [exact Ha'|].
    intros ev Hev. now rewrite delivery_dropped.
  - (* not required: the pointer moves on *)
    destruct (Nat.eqb_spec (S (currentStepIndex p)) (List.length (steps p)))
      as [Hend|Hmore];
      (eexists _, _); (split; [reflexivity|]); fields;
      (split; [reflexivity|]); cbn [steps currentStepIndex];
      (split; [exact Hnth|]); (split; [discriminate|]); intros _;
      repeat split; auto; try lia.
Qed.

End SessionFacts.

(** ** Runs of the session on sample inputs *)

Section SessionRuns.
Import Effect Session Samples.

Lemma sampleSession_new : newAnswerSession sampleConfig = Return sampleSession.
Proof. reflexivity. Qed.

Lemma sampleSession_reachable (evs : list Event) :
  reachable sampleParse (run sampleParse evs sampleSession).
Proof.
  apply reachable_run. exact (reachable_new _ _ _ sampleSession_new).
Qed.

(** Three fragments, then the end of the stream. *)
Example ask_three_fragments :
  interactions
    (run sampleParse
       [Ask "What is Orama?"; FragmentArrived "Orama ";
        FragmentArrived "is a "; FragmentArrived "search engine.";
        StreamEnded]
       sampleSession)
  = [mkInteraction 0 "What is Orama?" "Orama is a search engine." None done
       None false].
Proof. reflexivity. Qed.

(** A failed tool call that is not required does not abort the plan. *)
Example plan_optional_failure :
  map (fun i => (state i, response i, option_map currentStepIndex (plan i)))
    (interactions
       (run sampleParse
          [Ask "q";
           PlanDeclared [mkStepDescriptor retrieval true "";
                         mkStepDescriptor tool_call false "{}";
                         mkStepDescriptor generation true ""];
           StepResolved (Succeeded "docs"); StepResolved Failed;
           StepResolved (Succeeded "answer")]
          sampleSession))
  = [(done, "answer", Some 3)].
Proof. reflexivity. Qed.

(** A failed tool call that is required aborts it. *)
Example plan_required_failure :
  map (fun i => (state i, response i, option_map currentStepIndex (plan i)))
    (interactions
       (run sampleParse [StepResolved Failed; StepResolved (Succeeded "late")]
          planSession))
  = [(error, "", Some 1)].
Proof. reflexivity. Qed.

(** Arguments that do not parse fail a tool call that would have
    succeeded. *)
Example plan_parse_failure :
  map (fun i => (state i, option_map steps (plan i)))
    (interactions
       (run sampleParse
          [Ask "q"; PlanDeclared [mkStepDescriptor tool_call true "oops"];
           StepResolved (Succeeded "result")]
          sampleSession))
  = [(error, Some [mkStep tool_call step_failed None true "oops"])].
Proof. reflexivity. Qed.

(** An ask made while another is in flight waits for its turn. *)
Example ask_queued :
  map (fun i => (query i, state i, aborted i))
    (interactions
       (run sampleParse
          [Ask "first"; Ask "second"; FragmentArrived "a"; Abort;
           FragmentArrived "late"; StartQueued; FragmentArrived "b"]
          sampleSession))
  = [("first", done, true); ("second", streaming, false)].
Proof. reflexivity. Qed.

Lemma interaction_state_monotonic_witness :
  reachable sampleParse streamingSession
  /\ exists i',
      nth_error
        (interactions (run sampleParse [Abort; Ask "Y"] streamingSession)) 0
      = Some i'
      /\ id i' = 0
      /\ state_forward streaming (state i')
      /\ (terminal streaming = true -> state i' = streaming).
Proof.
  assert (Hr : reachable sampleParse streamingSession)
    by apply sampleSession_reachable.
  split; [exact Hr|].
  destruct (interaction_state_monotonic sampleParse streamingSession
              [Abort; Ask "Y"] Hr) as [H _].
  exact (H 0 (mkInteraction 0 "X" "par" None streaming None false) eq_refl).
Defined.

Lemma abort_safe_witness :
  reachable sampleParse streamingSession
  /\ fst (abort streamingSession) = Return tt
  /\ abort (snd (abort streamingSession))
     = (Return tt, snd (abort streamingSession))
  /\ all_terminal (interactions (snd (abort streamingSession)))
  /\ (forall i, last_opt (interactions (snd (abort streamingSession))) = Some i ->
                terminal (state i) = true)
  /\ activeHandle (snd (abort streamingSession)) = None.
Proof.
  assert (Hr : reachable sampleParse streamingSession)
    by apply sampleSession_reachable.
  split; [exact Hr|].
  exact (abort_safe sampleParse streamingSession Hr).
Defined.

Lemma regenerateLast_reissues_witness :
  reachable sampleParse answeredSession
  /\ last_opt (interactions answeredSession) = Some answeredInteraction
  /\ terminal (state answeredInteraction) = true
  /\ exists fresh,
      fst (regenerateLast answeredSession) = Return tt
      /\ interactions (snd (regenerateLast answeredSession))
         = interactions answeredSession ++ [fresh]
      /\ query fresh = "X"
      /\ response fresh = ""
      /\ state fresh = streaming
      /\ last_opt
           (removelast (interactions (snd (regenerateLast answeredSession))))
         = Some answeredInteraction.
Proof.
  assert (Hr : reachable sampleParse answeredSession)
    by apply sampleSession_reachable.
  split; [exact Hr|]. split; [reflexivity|]. split; [reflexivity|].
  destruct (regenerateLast_reissues sampleParse answeredSession Hr)
    as [_ H].
  exact (H answeredInteraction eq_refl eq_refl).
Defined.



Lemma failed_step_policy_witness :
  activeHandle planSession = Some 0
  /\ last_opt (interactions planSession) = Some planInteraction
  /\ plan planInteraction = Some planExecution
  /\ nth_error (steps planExecution) (currentStepIndex planExecution)
     = Some toolStep
  /\ effectiveOutcome sampleParse toolStep Failed = Failed
  /\ required toolStep = true
  /\ exists after p',
      last_opt
        (interactions (snd (dispatch sampleParse (StepResolved Failed)
                              planSession)))
      = Some after
      /\ plan after = Some p'
      /\ state after = error
      /\ currentStepIndex p' = 1
      /\ activeHandle (snd (dispatch sampleParse (StepResolved Failed)
                              planSession))
         = None.
Proof.
  repeat (split; [reflexivity|]).
  destruct (failed_step_policy sampleParse planSession 0 planInteraction
              planExecution toolStep Failed
              eq_refl eq_refl eq_refl eq_refl eq_refl)
    as (after & p' & Hlast & Hplan & _ & Hreq & _).
  destruct (Hreq eq_refl) as (Hstate & Hindex & Hhandle & _).
  exists after, p'. repeat split; assumption.
Defined.

End SessionRuns.

(** * Further properties of the sources *)

(** ** createRandomString, draw by draw *)

Section RandomStringFacts.
Import Utils.

(** The loop takes one draw per iteration, whatever the draws are. *)
Lemma createRandomString_loop_cursor (fuel : nat) :
  forall (length i : Z) (result : string) (g : Rng),
    (Z.to_nat (length - i) <= fuel)%nat ->
    cursor (snd (createRandomString_loop fuel length i result g))
    = (cursor g + Z.to_nat (length - i))%nat
    /\ draws (snd (createRandomString_loop fuel length i result g))
       = draws g.
Proof.
  induction fuel as [|fuel IH]; intros length i result g Hfuel.
  - cbn [createRandomString_loop snd]. split; [lia | reflexivity].
  - rewrite createRandomString_loop_S.
    destruct (Z.ltb_spec i length) as [Hlt|Hge].
    + destruct (IH length (i + 1)%Z
                  (result ++ JS.charAt characters
                     (Math_floor
                        (JSNumber.mul (draws g (cursor g))
                           (inject_Z (JS.length characters)))))%string
                  (snd (Math_random g))) as [Hc Hd]; [lia|].
      rewrite Hc, Hd. cbn [Math_random snd cursor draws]. split; [lia|auto].
    + cbn [snd]. split; [lia | reflexivity].
Qed.

(** [createRandomString(length)] calls [Math.random] once per character
    asked for, and not at all for a length that is zero or negative,
    whatever values the draws have. *)
Theorem createRandomString_consumes (length : Z) (g : Rng) :
  cursor (snd (createRandomString length g))
  = (cursor g + Z.to_nat length)%nat
  /\ draws (snd (createRandomString length g)) = draws g
  /\ ((length <= 0)%Z -> createRandomString length g = ("", g)).
Proof.
  unfold createRandomString.
  destruct (createRandomString_loop_cursor (Z.to_nat length) length 0 "" g)
    as [Hc Hd]; [lia|].
  rewrite Hc, Hd, Z.sub_0_r. repeat split.
  intros Hneg. now replace (Z.to_nat length) with 0%nat by lia.
Qed.

(** What was accumulated before the loop is a prefix of its result. *)
Lemma createRandomString_loop_prefix (fuel : nat) :
  forall (length i : Z) (before result : string) (g : Rng),
    createRandomString_loop fuel length i (before ++ result)%string g
    = ((before ++ fst (createRandomString_loop fuel length i result g))%string,
       snd (createRandomString_loop fuel length i result g)).
Proof.
  induction fuel as [|fuel IH]; intros length i before result g.
  - reflexivity.
  - rewrite !createRandomString_loop_S.
    destruct (i <? length)%Z; [|reflexivity].
    rewrite append_assoc. apply IH.
Qed.

(** The loop counts iterations, not positions. *)
Lemma createRandomString_loop_shift (fuel : nat) :
  forall (length i k : Z) (result : string) (g : Rng),
    createRandomString_loop fuel (length + k) (i + k) result g
    = createRandomString_loop fuel length i result g.
Proof.
  induction fuel as [|fuel IH]; intros length i k result g.
  - reflexivity.
  - rewrite !createRandomString_loop_S.
    replace (i + k <? length + k)%Z with (i <? length)%Z
      by (destruct (Z.ltb_spec i length), (Z.ltb_spec (i + k) (length + k));
          auto; lia).
    destruct (i <? length)%Z; [|reflexivity].
    replace (i + k + 1)%Z with (i + 1 + k)%Z by lia. apply IH.
Qed.

(** The loop up to [length] is the loop up to [mid] followed by the loop
    from [mid] on. *)
Lemma createRandomString_loop_split (fuel : nat) :
  forall (length mid i : Z) (result : string) (g : Rng),
    (i <= mid <= length)%Z ->
    (Z.to_nat (length - i) <= fuel)%nat ->
    createRandomString_loop fuel length i result g
    = createRandomString_loop fuel length mid
        (fst (createRandomString_loop fuel mid i result g))
        (snd (createRandomString_loop fuel mid i result g)).
Proof.
  induction fuel as [|fuel IH]; intros length mid i result g Hi Hfuel.
  - reflexivity.
  - destruct (Z.eq_dec i mid) as [->|Hne].
    + rewrite (createRandomString_loop_S fuel mid mid).
      now rewrite Z.ltb_irrefl.
    + rewrite (createRandomString_loop_S fuel length i),
              (createRandomString_loop_S fuel mid i).
      destruct (Z.ltb_spec i length); [|lia].
      destruct (Z.ltb_spec i mid); [|lia].
      rewrite (IH length mid (i + 1)%Z) by lia.
      replace (S fuel) with (fuel + 1)%nat by lia.
      rewrite createRandomString_loop_fuel by lia. reflexivity.
Qed.

(** A string of [m + n] characters is a string of [m] characters followed
    by a string of [n] characters made from the draws that come next. *)
Theorem createRandomString_append (m n : Z) (g : Rng) :
  (0 <= m)%Z -> (0 <= n)%Z ->
  createRandomString (m + n) g
  = ((fst (createRandomString m g)
      ++ fst (createRandomString n (snd (createRandomString m g))))%string,
     snd (createRandomString n (snd (createRandomString m g)))).
Proof.
  intros Hm Hn. unfold createRandomString.
  rewrite (createRandomString_loop_split _ (m + n) m 0) by lia.
  replace (Z.to_nat (m + n)) with (Z.to_nat m + Z.to_nat n)%nat by lia.
  rewrite (createRandomString_loop_fuel (Z.to_nat m) (Z.to_nat n) m 0) by lia.
  set (first := createRandomString_loop (Z.to_nat m) m 0 "" g).
  rewrite <- (append_empty_r (fst first)) at 1.
  rewrite createRandomString_loop_prefix.
  replace (createRandomString_loop (Z.to_nat m + Z.to_nat n) (m + n) m ""
             (snd first))
    with (createRandomString_loop (Z.to_nat n) n 0 "" (snd first));
    [reflexivity|].
  rewrite <- (createRandomString_loop_shift (Z.to_nat n) n 0 m).
  replace (Z.to_nat m + Z.to_nat n)%nat with (Z.to_nat n + Z.to_nat m)%nat
    by lia.
  rewrite createRandomString_loop_fuel by lia.
  now rewrite Z.add_0_l, (Z.add_comm n m).
Qed.

Lemma createRandomString_append_witness :
  (0 <= 2)%Z /\ (0 <= 3)%Z
  /\ createRandomString (2 + 3) (mkRng (fun _ => (1 # 2)%Q) 0)
     = ((fst (createRandomString 2 (mkRng (fun _ => (1 # 2)%Q) 0))
         ++ fst (createRandomString 3
                   (snd (createRandomString 2
                           (mkRng (fun _ => (1 # 2)%Q) 0)))))%string,
        snd (createRandomString 3
               (snd (createRandomString 2 (mkRng (fun _ => (1 # 2)%Q) 0))))).
Proof.
  assert (H2 : (0 <= 2)%Z) by lia. assert (H3 : (0 <= 3)%Z) by lia.
  split; [exact H2|]. split; [exact H3|].
  exact (createRandomString_append 2 3 _ H2 H3).
Defined.

Lemma occurs_get (c : ascii) (s : string) :
  occurs c s = true ->
  exists k, (k < String.length s)%nat /\ String.get k s = Some c.
Proof.
  induction s as [|d s IH]; cbn; [discriminate|].
  destruct (Ascii.eqb_spec c d) as [->|Hne]; cbn.
  - intros _. exists 0%nat. split; [lia | reflexivity].
  - intros H. destruct (IH H) as (k & Hk & Hg).
    exists (S k). split; [lia | exact Hg].
Qed.

(** Each of the 65 draws [Samples.middle_draw k 65] is a double in
    [0, 1) whose product with 65, rounded, has the integer part [k]. *)
Lemma middle_draw_selects (k : nat) :
  (k < 65)%nat ->
  JSNumber.is_double (Samples.middle_draw (Z.of_nat k) 65)
  /\ (0 <= Samples.middle_draw (Z.of_nat k) 65)%Q
  /\ (Samples.middle_draw (Z.of_nat k) 65 < 1)%Q
  /\ Math_floor
       (JSNumber.mul (Samples.middle_draw (Z.of_nat k) 65) (inject_Z 65))
     = Z.of_nat k.
Proof.
  intros Hk.
  assert (Hall :
    forallb (fun k =>
               let r := Samples.middle_draw (Z.of_nat k) 65 in
               Qeq_bool (JSNumber.round r) r
               && Qle_bool 0 r && negb (Qle_bool 1 r)
               && (Math_floor (JSNumber.mul r (inject_Z 65)) =? Z.of_nat k)%Z)
            (seq 0 65) = true) by (vm_compute; reflexivity).
  rewrite forallb_forall in Hall.
  specialize (Hall k ltac:(apply in_seq; lia)). cbv zeta in Hall.
  apply andb_prop in Hall as [Hall H4]. apply andb_prop in Hall as [Hall H3].
  apply andb_prop in Hall as [H1 H2].
  apply Qeq_bool_iff in H1. apply Qle_bool_iff in H2. apply Z.eqb_eq in H4.
  repeat split; auto.
  apply Qnot_le_lt. intros H. apply Qle_bool_iff in H. rewrite H in H3.
  discriminate.
Qed.

(** Every character of the alphabet can come out: for each of them there
    is a draw, a double in [0, 1), that makes [createRandomString(1)]
    return it. *)
Theorem createRandomString_reaches (c : ascii) :
  in_alphabet c = true ->
  exists r : Q,
    JSNumber.is_double r /\ (0 <= r)%Q /\ (r < 1)%Q
    /\ fst (createRandomString 1 (mkRng (fun _ => r) 0))
       = String c EmptyString.
Proof.
  intros Hc. rewrite <- characters_alphabet in Hc.
  destruct (occurs_get c characters Hc) as (k & Hk & Hg).
  change (String.length characters) with 65%nat in Hk.
  destruct (middle_draw_selects k Hk) as (Hd & H0 & H1 & Hf).
  exists (Samples.middle_draw (Z.of_nat k) 65). repeat split; auto.
  unfold createRandomString. change (Z.to_nat 1) with 1%nat.
  rewrite createRandomString_loop_S. cbn [Z.ltb Z.compare].
  cbn [createRandomString_loop fst Math_random snd draws cursor].
  change (JS.length characters) with 65%Z. rewrite Hf.
  unfold JS.charAt. destruct (Z.ltb_spec (Z.of_nat k) 0); [lia|].
  now rewrite Nat2Z.id, Hg.
Qed.

Lemma createRandomString_reaches_witness :
  in_alphabet "$" = true
  /\ exists r : Q,
      JSNumber.is_double r /\ (0 <= r)%Q /\ (r < 1)%Q
      /\ fst (createRandomString 1 (mkRng (fun _ => r) 0)) = "$"%string.
Proof.
  split; [reflexivity|].
  exact (createRandomString_reaches "$"%char eq_refl).
Defined.

End RandomStringFacts.

(** ** formatDuration *)

Section FormatDurationFacts.
Import Utils.

Example formatDuration_runs :
  map formatDuration [-3; 0; 999; 1000; 1500; 61234; 120000]%Z
  = ["-3ms"; "0ms"; "999ms"; "1s"; "1.5s"; "61.2s"; "120s"]%string.
Proof. vm_compute. reflexivity. Qed.

(** Half way between two tenths the digit depends on the double nearest
    to the quotient: 1.05 and 1.35 lie above the decimal they are written
    as, 1.15 and 1.45 below, 1.25 is exact. *)
Example formatDuration_half_way :
  map formatDuration [1050; 1150; 1250; 1350; 1450]%Z
  = ["1.1s"; "1.1s"; "1.3s"; "1.4s"; "1.4s"]%string.
Proof. vm_compute. reflexivity. Qed.

(** A duration of whole seconds, from one second up to 2^53 milliseconds,
    is printed as that number of seconds, without a decimal point: the
    quotient by 1000 is exact in double precision. *)
Theorem formatDuration_whole_seconds (d : Z) :
  (1000 <= d <= 2 ^ 53)%Z -> (d mod 1000 = 0)%Z ->
  formatDuration d = (JSNumber.toString (d / 1000) ++ "s")%string.
Proof.
  intros Hd Hm. unfold formatDuration, JSNumber.div.
  destruct (Z.ltb_spec d 1000); [lia|].
  assert (Hx : (inject_Z d / 1000 == inject_Z (d / 1000))%Q).
  { rewrite (Z.div_mod d 1000) at 1 by lia.
    rewrite Hm, Z.add_0_r, inject_Z_mult.
    change (inject_Z 1000) with 1000%Q. field. }
  assert (Hr : (JSNumber.round (inject_Z d / 1000)
                == inject_Z (d / 1000))%Q).
  { apply round_exact; [exact Hx|].
    split; [apply Z.div_le_lower_bound; lia|].
    apply Z.div_lt_upper_bound; lia. }
  unfold JSNumber.isInteger. rewrite (Qfloor_comp _ _ Hr), Qfloor_Z.
  assert (Hb : Qeq_bool (inject_Z (d / 1000))
                 (JSNumber.round (inject_Z d / 1000)) = true).
  { apply Qeq_bool_iff. now symmetry. }
  now rewrite Hb.
Qed.

Lemma formatDuration_whole_seconds_witness :
  (1000 <= 7000 <= 2 ^ 53)%Z /\ (7000 mod 1000 = 0)%Z
  /\ formatDuration 7000 = (JSNumber.toString (7000 / 1000) ++ "s")%string.
Proof.
  assert (H1 : (1000 <= 7000 <= 2 ^ 53)%Z) by (cbn; lia).
  split; [exact H1|]. split; [reflexivity|].
  exact (formatDuration_whole_seconds 7000 H1 eq_refl).
Defined.

(** A duration from one second up to 2^53 milliseconds that is not a
    whole number of seconds is printed in seconds with one decimal: the
    tenths printed are within 0.05 s of the duration, and they are the
    nearest tenths, rounded half up, unless the duration lies half way
    between two tenths. *)
Theorem formatDuration_tenths (d : Z) :
  (1000 <= d <= 2 ^ 53)%Z -> (d mod 1000 <> 0)%Z ->
  exists n : Z,
    formatDuration d
    = (JSNumber.toString (n / 10) ++ "." ++ JSNumber.toString (n mod 10)
       ++ "s")%string
    /\ (d - 50 <= 100 * n <= d + 50)%Z
    /\ ((d mod 100 <> 50)%Z -> n = ((d + 50) / 100)%Z).
Proof.
  intros Hd Hm. unfold formatDuration, JSNumber.div.
  destruct (Z.ltb_spec d 1000); [lia|].
  set (x := (inject_Z d / 1000)%Q).
  assert (Hx1 : (1 <= x)%Q).
  { unfold x. apply Qle_shift_div_l; [reflexivity|].
    rewrite Qmult_1_l. change 1000%Q with (inject_Z 1000).
    rewrite <- Zle_Qle. lia. }
  assert (Hx2 : (x < inject_Z (2 ^ 44))%Q).
  { unfold x. apply Qlt_shift_div_r; [reflexivity|].
    change 1000%Q with (inject_Z 1000).
    rewrite <- inject_Z_mult, <- Zlt_Qlt. lia. }
  pose proof (round_error x Hx1 Hx2) as He.
  set (s := JSNumber.round x) in *.
  assert (Hxd : (x * 1000 == inject_Z d)%Q) by (unfold x; field).
  (* the quotient is not an integer: it is too close to d / 1000 *)
  assert (Hni : JSNumber.isInteger s = false).
  { unfold JSNumber.isInteger.
    destruct (Qeq_bool (inject_Z (Qfloor s)) s) eqn:E; [|reflexivity].
    apply Qeq_bool_iff in E. exfalso.
    set (k := Qfloor s) in *.
    assert (Hk : (-1 < 1000 * k - d < 1)%Z).
    { split; rewrite Zlt_Qlt, inject_Z_minus, inject_Z_mult, <- Hxd;
        change (inject_Z 1000) with 1000%Q;
        change (inject_Z (-1)) with (-1)%Q;
        change (inject_Z 1) with 1%Q; lra. }
    apply Hm. replace d with (k * 1000)%Z by lia. apply Z.mod_mul. lia. }
  rewrite Hni. unfold JSNumber.toFixed1.
  set (n := Qfloor (s * 10 + (1 # 2))).
  exists n.
  rewrite !append_assoc. split; [reflexivity|].
  pose proof (Qfloor_le (s * 10 + (1 # 2))) as Hf1.
  pose proof (Qlt_floor (s * 10 + (1 # 2))) as Hf2.
  fold n in Hf1, Hf2. rewrite inject_Z_plus in Hf2.
  change (inject_Z 1) with 1%Q in Hf2.
  assert (Hlo : (100 * n - d - 50 < 1)%Z).
  { rewrite Zlt_Qlt, !inject_Z_minus, inject_Z_mult, <- Hxd.
    change (inject_Z 100) with 100%Q; change (inject_Z 50) with 50%Q;
      change (inject_Z 1) with 1%Q. lra. }
  assert (Hhi : (-1 < 100 * (n + 1) - d - 50)%Z).
  { rewrite Zlt_Qlt, !inject_Z_minus, inject_Z_mult, inject_Z_plus, <- Hxd.
    change (inject_Z 100) with 100%Q; change (inject_Z 50) with 50%Q;
      change (inject_Z 1) with 1%Q; change (inject_Z (-1)) with (-1)%Q.
    lra. }
  split; [lia|].
  intros Htie.
  pose proof (Z.div_mod (d + 50) 100 ltac:(lia)) as Hdm.
  pose proof (Z.mod_pos_bound (d + 50) 100 ltac:(lia)) as Hmb.
  assert (Hr0 : ((d + 50) mod 100 <> 0)%Z).
  { intros H0. apply Htie.
    pose proof (Z.div_mod d 100 ltac:(lia)).
    pose proof (Z.mod_pos_bound d 100 ltac:(lia)). lia. }
  lia.
Qed.

Lemma formatDuration_tenths_witness :
  (1000 <= 61234 <= 2 ^ 53)%Z /\ (61234 mod 1000 <> 0)%Z
  /\ exists n : Z,
      formatDuration 61234
      = (JSNumber.toString (n / 10) ++ "." ++ JSNumber.toString (n mod 10)
         ++ "s")%string
      /\ (61234 - 50 <= 100 * n <= 61234 + 50)%Z
      /\ ((61234 mod 100 <> 50)%Z -> n = ((61234 + 50) / 100)%Z).
Proof.
  assert (H1 : (1000 <= 61234 <= 2 ^ 53)%Z) by (cbn; lia).
  assert (H2 : (61234 mod 1000 <> 0)%Z) by (cbn; lia).
  split; [exact H1|]. split; [exact H2|].
  exact (formatDuration_tenths 61234 H1 H2).
Defined.

End FormatDurationFacts.

(** ** sendBeacon *)

Section SendBeaconFacts.
Import Effect Utils.

Variable beacon_returns : string -> option string -> Completion bool.
Variable fetch_settles :
  string -> FetchInit -> Completion (option JS.Exception).

(** [sendBeacon] asks the host to put the payload on the wire at most
    once: through [navigator.sendBeacon], with the endpoint and the body,
    where there is one; through [fetch], as a POST of the body with a JSON
    content type, only where there is no [navigator]; and not at all where
    [navigator] lacks [sendBeacon], without a fallback to [fetch].  It
    catches nothing and throws nothing of its own: it throws what the one
    call it makes to the host throws, and returns [undefined] otherwise.
    A rejection of the promise [fetch] returns is not thrown: it is
    written to the console, and nothing else is. *)
Theorem sendBeacon_at_most_once (navigator : option Navigator)
        (endpoint : string) (body : option string)
        (log : list Transmission) :
  let init :=
    mkFetchInit "POST" body [("Content-Type", "application/json")] in
  let run :=
    sendBeacon navigator beacon_returns fetch_settles endpoint body log in
  exists effects,
    snd run = log ++ effects
    /\ (List.length (filter transmits effects) <= 1)%nat
    /\ effects
       = match navigator with
         | Some nav =>
             if has_sendBeacon nav then [BeaconQueued endpoint body] else []
         | None =>
             Fetched endpoint init
             :: match fetch_settles endpoint init with
                | Return (Some e) => [ConsoleLogged e]
                | _ => []
                end
         end
    /\ fst run
       = match navigator with
         | Some nav =>
             if has_sendBeacon nav then
               match beacon_returns endpoint body with
               | Return _ => Return JS.VUndefined
               | Throw e => Throw e
               end
             else Return JS.VUndefined
         | None =>
             match fetch_settles endpoint init with
             | Return _ => Return JS.VUndefined
             | Throw e => Throw e
             end
         end.
Proof.
  intros init run. subst run init.
  unfold sendBeacon, fetch_quietly, bind, modify, ret, lift.
  destruct navigator as [[[|]]|]; cbn.
  - exists [BeaconQueued endpoint body].
    destruct (beacon_returns endpoint body); cbn; auto.
  - exists []. rewrite app_nil_r. auto.
  - destruct (fetch_settles endpoint _) as [[e|]|e]; cbn;
      eexists; (split; [|split; [|split; reflexivity]]);
      rewrite <- ?app_assoc; cbn; auto.
Qed.

(** In a host without [navigator] whose [fetch] is rejected the payload
    is posted once and the rejection goes to the console; where there is
    no [fetch] either, [sendBeacon] throws; and where [navigator] has no
    [sendBeacon], nothing is sent though [fetch] would work. *)
Example sendBeacon_runs :
  sendBeacon None Samples.acceptingBeacon Samples.rejectingFetch
    "https://host/t" (Some "{}") []
  = (Return JS.VUndefined,
     [Fetched "https://host/t"
        (mkFetchInit "POST" (Some "{}")
           [("Content-Type", "application/json")]);
      ConsoleLogged (JS.Error "offline")])
  /\ fst (sendBeacon None Samples.acceptingBeacon Samples.missingFetch
            "https://host/t" (Some "{}") [])
     = Throw (JS.Error "fetch is not defined")
  /\ sendBeacon (Some (mkNavigator false)) Samples.acceptingBeacon
       Samples.rejectingFetch "https://host/t" (Some "{}") []
     = (Return JS.VUndefined, []).
Proof. repeat split. Qed.

End SendBeaconFacts.

(** ** Timers *)

Section TimerFacts.
Import Utils.

(** A delay the host waits for has passed when the timer is due. *)
Lemma due_time_waits (now delay : Z) :
  (delay <= TIMEOUT_MAX)%Z -> (now + delay <= due_time now delay)%Z.
Proof.
  intros H. unfold due_time.
  destruct (Z.leb_spec 0 delay), (Z.leb_spec delay TIMEOUT_MAX); cbn; lia.
Qed.

End TimerFacts.

(** ** throttle *)

Section ThrottleFacts.
Import Effect Utils.

Variable Args : Type.
Variable limit : Z.

(** What the closure keeps true: the invocations are spaced and in the
    past; while [inThrottle] is set exactly one timer is pending, due
    [limit] after the latest invocation; once it is reset no timer is
    pending and the latest invocation is at least [limit] old. *)
Lemma throttle_step_invariant (ev : TimerEvent Args)
      (s s' : Throttle Args) :
  (limit <= TIMEOUT_MAX)%Z ->
  (spaced limit (map fst (throttle_invoked s))
   /\ (forall t a, In (t, a) (throttle_invoked s) ->
                   (t <= throttle_clock s)%Z)
   /\ if flag_set (inThrottle s) then
        exists id t a rest,
          throttle_invoked s = (t, a) :: rest
          /\ throttle_timers s = [(id, due_time t limit)]
      else
        throttle_timers s = []
        /\ forall t a rest, throttle_invoked s = (t, a) :: rest ->
                            (due_time t limit <= throttle_clock s)%Z) ->
  throttle_step limit ev s = Some s' ->
  spaced limit (map fst (throttle_invoked s'))
  /\ (forall t a, In (t, a) (throttle_invoked s') ->
                  (t <= throttle_clock s')%Z)
  /\ if flag_set (inThrottle s') then
       exists id t a rest,
         throttle_invoked s' = (t, a) :: rest
         /\ throttle_timers s' = [(id, due_time t limit)]
     else
       throttle_timers s' = []
       /\ forall t a rest, throttle_invoked s' = (t, a) :: rest ->
                           (due_time t limit <= throttle_clock s')%Z.
Proof.
  intros Hlimit (Hsp & Hcl & Hfl) Hstep.
  destruct ev as [t args | t id]; cbn in Hstep.
  - destruct (Z.ltb_spec t (throttle_clock s)); [discriminate|].
    destruct (flag_set (inThrottle s)) eqn:Ef; cbn in Hstep;
      injection Hstep as <-; cbn.
    + rewrite Ef. repeat split; auto.
      intros t0 a0 Hin. specialize (Hcl _ _ Hin). lia.
    + destruct Hfl as [Ht Hlast]. repeat split.
      * destruct (throttle_invoked s) as [|[t0 a0] rest] eqn:Ei; cbn; auto.
        split; [|exact Hsp]. specialize (Hlast _ _ _ eq_refl).
        pose proof (due_time_waits t0 limit Hlimit). lia.
      * intros t0 a0 [[= <- <-]|Hin]; [lia|].
        specialize (Hcl _ _ Hin). lia.
      * rewrite Ht. eexists _, _, _, _. split; reflexivity.
  - destruct (pending id (throttle_timers s)) as [due|] eqn:Ep;
      [|discriminate].
    destruct (Z.ltb_spec t (throttle_clock s)); [discriminate|].
    destruct (Z.ltb_spec t due); [discriminate|]. cbn in Hstep.
    injection Hstep as <-. cbn.
    destruct (flag_set (inThrottle s)) eqn:Ef.
    + destruct Hfl as (id0 & t0 & a0 & rest & Hi & Ht).
      rewrite Ht in Ep |- *. cbn in Ep |- *.
      destruct (Nat.eqb id id0); [|discriminate]. injection Ep as <-.
      repeat split; auto.
      * intros t1 a1 Hin. specialize (Hcl _ _ Hin). lia.
      * intros t1 a1 rest1 Hi1. rewrite Hi in Hi1.
        injection Hi1 as <- <- <-. lia.
    + destruct Hfl as [Ht _]. rewrite Ht in Ep. discriminate.
Qed.

(** For a [func] that returns without calling back, a call of the
    throttled function is one atomic step. *)
Lemma throttled_step_plain (func : Args -> M (Throttle Args) unit)
      (ev : TimerEvent Args) (s : Throttle Args) :
  returns_plainly func ->
  throttled_step limit func ev s = throttle_step limit ev s.
Proof.
  intros Hf. destruct ev as [t args | t id]; [|reflexivity].
  cbn [throttled_step throttle_step].
  destruct (t <? throttle_clock s)%Z; [reflexivity|].
  unfold throttled, apply_func, setTimeout_reset, bind, get, modify, ret.
  cbn [inThrottle]. destruct (flag_set (inThrottle s)); cbn; [reflexivity|].
  rewrite Hf. reflexivity.
Qed.

Lemma throttled_run_plain (func : Args -> M (Throttle Args) unit)
      (evs : list (TimerEvent Args)) :
  returns_plainly func ->
  forall s : Throttle Args,
    throttled_run limit func evs s = throttle_run limit evs s.
Proof.
  intros Hf. induction evs as [|ev evs IH]; intros s; cbn; [reflexivity|].
  rewrite (throttled_step_plain func ev s Hf).
  destruct (throttle_step limit ev s); [apply IH | reflexivity].
Qed.

(** Two invocations of a throttled function are at least [limit]
    milliseconds apart, however the calls and the timers fall, provided
    that [limit] is a delay the host waits for, at most 2^31 - 1 ms, and
    that [func] returns without calling the throttled function back. *)
Theorem throttle_spacing (func : Args -> M (Throttle Args) unit)
        (evs : list (TimerEvent Args)) (s : Throttle Args) :
  (limit <= TIMEOUT_MAX)%Z ->
  returns_plainly func ->
  throttled_run limit func evs (throttle Args) = Some s ->
  spaced limit (map fst (throttle_invoked s)).
Proof.
  intros Hlimit Hf.
  assert (Hgen : forall (evs : list (TimerEvent Args))
                        (s0 s1 : Throttle Args),
             (spaced limit (map fst (throttle_invoked s0))
              /\ (forall t a, In (t, a) (throttle_invoked s0) ->
                              (t <= throttle_clock s0)%Z)
              /\ if flag_set (inThrottle s0) then
                   exists id t a rest,
                     throttle_invoked s0 = (t, a) :: rest
                     /\ throttle_timers s0 = [(id, due_time t limit)]
                 else
                   throttle_timers s0 = []
                   /\ forall t a rest, throttle_invoked s0 = (t, a) :: rest ->
                                       (due_time t limit <= throttle_clock s0)%Z) ->
             throttle_run limit evs s0 = Some s1 ->
             spaced limit (map fst (throttle_invoked s1))).
  { clear - Hlimit.
    induction evs as [|ev evs IH]; intros s0 s1 Hs Hr; cbn in Hr.
    - injection Hr as <-. apply Hs.
    - destruct (throttle_step limit ev s0) as [s'|] eqn:E; [|discriminate].
      apply (IH s' s1); [eapply throttle_step_invariant; eauto | exact Hr]. }
  rewrite (throttled_run_plain func evs Hf).
  intros Hr. apply (Hgen evs (throttle Args) s); [|exact Hr].
  repeat split; cbn; auto; intros; try contradiction; discriminate.
Qed.




End ThrottleFacts.

(** ** debounce *)

Section DebounceFacts.
Import Utils.

Variable Args : Type.
Variable delay : Z.

Lemma last_call_app (evs evs' : list (TimerEvent Args))
      (before : option (Z * Args)) :
  last_call (evs ++ evs') before = last_call evs' (last_call evs before).
Proof.
  revert before.
  induction evs as [|[t a|t id] evs IH]; intros before; cbn; auto.
Qed.


(** One event keeps at most one timer pending: the one of the latest
    call. *)
Lemma debounce_step_pending (ev : TimerEvent Args)
      (latest : option (Z * Args)) (s s' : Debounce Args) :
  (debounce_timers s = []
   \/ exists id t a,
       debounce_timers s = [(id, (due_time t delay, a))]
       /\ debounceTimer s = Some id /\ latest = Some (t, a)) ->
  debounce_step delay ev s = Some s' ->
  debounce_timers s' = []
  \/ exists id t a,
      debounce_timers s' = [(id, (due_time t delay, a))]
      /\ debounceTimer s' = Some id
      /\ last_call [ev] latest = Some (t, a).
Proof.
  intros Hinv Hstep. destruct ev as [t args | t id]; cbn in Hstep |- *.
  - destruct (Z.ltb_spec t (debounce_clock s)); [discriminate|].
    injection Hstep as <-. right. cbn.
    exists (debounce_nextTimer s), t, args. repeat split.
    destruct Hinv as [-> | (id & t0 & a0 & -> & -> & _)].
    + now destruct (debounceTimer s).
    + cbn. now rewrite Nat.eqb_refl.
  - destruct (lookup_timer id (debounce_timers s)) as [[due args]|] eqn:El;
      [|discriminate].
    destruct ((t <? debounce_clock s)%Z || (t <? due)%Z); [discriminate|].
    injection Hstep as <-. left. cbn.
    destruct Hinv as [Ht | (id0 & t0 & a0 & Ht & _)]; rewrite Ht in El |- *.
    + discriminate.
    + cbn in El |- *. destruct (Nat.eqb id id0); [reflexivity | discriminate].
Qed.

(** The same over a whole trace, from any closure with at most one timer
    pending. *)
Lemma debounce_run_pending (evs : list (TimerEvent Args)) :
  forall (latest : option (Z * Args)) (s0 s1 : Debounce Args),
    (debounce_timers s0 = []
     \/ exists id t a,
         debounce_timers s0 = [(id, (due_time t delay, a))]
         /\ debounceTimer s0 = Some id /\ latest = Some (t, a)) ->
    debounce_run delay evs s0 = Some s1 ->
    debounce_timers s1 = []
    \/ exists id t a,
        debounce_timers s1 = [(id, (due_time t delay, a))]
        /\ debounceTimer s1 = Some id
        /\ last_call evs latest = Some (t, a).
Proof.
  induction evs as [|ev evs IH]; intros latest s0 s1 Hs Hr; cbn in Hr.
  - injection Hr as <-. exact Hs.
  - destruct (debounce_step delay ev s0) as [s'|] eqn:E; [|discriminate].
    change (ev :: evs) with ([ev] ++ evs). rewrite last_call_app.
    apply (IH _ s' s1); [eapply debounce_step_pending; eauto | exact Hr].
Qed.

(** A debounced function has at most one timer pending at any time, and
    the pending timer is the one of the latest call: each call cancels
    the timer of the call before it. *)
Theorem debounce_pending (evs : list (TimerEvent Args))
        (s : Debounce Args) :
  debounce_run delay evs (debounce Args) = Some s ->
  debounce_timers s = []
  \/ exists id t a,
      debounce_timers s = [(id, (due_time t delay, a))]
      /\ debounceTimer s = Some id
      /\ last_call evs None = Some (t, a).
Proof.
  intros Hr.
  apply (debounce_run_pending evs None (debounce Args) s);
    [now left | exact Hr].
Qed.


End DebounceFacts.

Section TimerRuns.
Import Utils.

(** Calls at 0, 40 and 120 ms with a limit of 100 ms: the call at 40 ms is
    dropped. *)
Example throttle_run_sample :
  option_map throttle_invoked
    (throttle_run 100
       [Called 0 "a"; Called 40 "b"; Fired 100 0; Called 120 "c"]%string
       (throttle string))
  = Some [(120, "c"); (0, "a")]%Z%string.
Proof. reflexivity. Qed.

(** Calls at 0 and 40 ms with a delay of 100 ms: only the second one is
    passed on, at 140 ms. *)
Example debounce_run_sample :
  option_map debounce_invoked
    (debounce_run 100
       [Called 0 "a"; Called 40 "b"; Fired 140 1]%string
       (debounce string))
  = Some [(140, "b")]%Z%string.
Proof. reflexivity. Qed.

(** The timer of a call that was followed by another call is gone. *)
Example debounce_cancelled_timer :
  debounce_run 100 [Called 0 "a"; Called 40 "b"; Fired 100 0]%string
    (debounce string)
  = None.
Proof. reflexivity. Qed.

(** A [func] that throws is invoked again by the next call, 1 ms later:
    [inThrottle] was never set.  A [func] that calls its throttled self
    back is invoked twice within the one call, and two timers are
    started.  With a limit of 2^31 ms, one more than the host waits for,
    a host that runs the timer after 1 ms lets a call at 2 ms through. *)
Example throttle_throwing_func :
  throttled_run 100 Samples.throwingFunc [Called 0 "a"; Called 1 "b"]%string
    (throttle string)
  = Some (mkThrottle string None [] 0 1 [(1, "b"); (0, "a")]%Z%string).
Proof. reflexivity. Qed.

Example throttle_reentrant_func :
  (forall (args : string) (s : Throttle string),
      Samples.reentrantFunc 100 args s
      = (if String.eqb args "again" then Effect.ret tt
         else throttled 100 (Samples.reentrantFunc 100) "again") s)
  /\ throttled_run 100 (Samples.reentrantFunc 100) [Called 0 "a"]%string
       (throttle string)
     = Some (mkThrottle string (Some true) [(0%nat, 100%Z); (1%nat, 100%Z)]
               2 0 [(0, "again"); (0, "a")]%Z%string).
Proof.
  split; [|reflexivity].
  intros args s. unfold Samples.reentrantFunc.
  destruct (String.eqb args "again"); reflexivity.
Qed.

Example throttle_limit_out_of_range :
  option_map throttle_invoked
    (throttled_run (TIMEOUT_MAX + 1) Samples.plainFunc
       [Called 0 "a"; Fired 1 0; Called 2 "b"]%string (throttle string))
  = Some [(2, "b"); (0, "a")]%Z%string.
Proof. reflexivity. Qed.

Lemma throttle_spacing_witness :
  (100 <= TIMEOUT_MAX)%Z
  /\ returns_plainly Samples.plainFunc
  /\ throttled_run 100 Samples.plainFunc Samples.throttleTrace
       (throttle string)
     = Some Samples.throttleEnd
  /\ spaced 100 (map fst (throttle_invoked Samples.throttleEnd)).
Proof.
  assert (H1 : (100 <= TIMEOUT_MAX)%Z) by (vm_compute; discriminate).
  assert (H2 : returns_plainly Samples.plainFunc)
    by (intros args s; reflexivity).
  split; [exact H1|]. split; [exact H2|]. split; [reflexivity|].
  exact (throttle_spacing string 100 Samples.plainFunc Samples.throttleTrace
           Samples.throttleEnd H1 H2 eq_refl).
Defined.


(** With a delay of 2^31 ms, one more than the host waits for, a host
    that runs the timer after 1 ms passes the call on at once. *)
Example debounce_delay_out_of_range :
  option_map debounce_invoked
    (debounce_run (TIMEOUT_MAX + 1) [Called 0 "a"; Fired 1 0]%string
       (debounce string))
  = Some [(1, "a")]%Z%string.
Proof. reflexivity. Qed.

Lemma debounce_pending_witness :
  debounce_run 100 Samples.debounceTrace (debounce string)
  = Some Samples.debouncePending
  /\ (debounce_timers Samples.debouncePending = []
      \/ exists id t a,
          debounce_timers Samples.debouncePending
          = [(id, (due_time t 100, a))]
          /\ debounceTimer Samples.debouncePending = Some id
          /\ last_call Samples.debounceTrace None = Some (t, a)).
Proof.
  split; [reflexivity|].
  exact (debounce_pending string 100 Samples.debounceTrace
           Samples.debouncePending eq_refl).
Defined.


End TimerRuns.

(** ** The other methods of the collection manager *)

Section ApiFacts.
Import Effect Collection CollectionApi.

Variable remote : ApiRequest -> Promise JS.value.
Variable remoteTools : ApiRequest -> Promise ExecuteToolsResponse.
Variable JSON_stringify : JS.value -> string.
Variable JSON_parse : string -> Completion JS.value.
Variable ZodType : Type.
Variable zodToJsonSchema : ZodType -> JS.value.

(** *** Objects *)

Lemma get_set_same (key : string) (v : JS.value)
      (fields : list (string * JS.value)) :
  get_field key (set_field key v fields) = v.
Proof.
  induction fields as [|[k old] fields IH]; cbn.
  - now rewrite String.eqb_refl.
  - destruct (String.eqb_spec k key) as [->|Hne]; cbn.
    + now rewrite String.eqb_refl.
    + destruct (String.eqb_spec k key); [contradiction | exact IH].
Qed.

Lemma get_set_other (key other : string) (v : JS.value)
      (fields : list (string * JS.value)) :
  other <> key ->
  get_field other (set_field key v fields) = get_field other fields.
Proof.
  intros Hne. induction fields as [|[k old] fields IH]; cbn.
  - destruct (String.eqb_spec key other); [congruence | reflexivity].
  - destruct (String.eqb_spec k key) as [->|Hk]; cbn.
    + destruct (String.eqb_spec key other); [congruence | reflexivity].
    + destruct (String.eqb_spec k other); [reflexivity | exact IH].
Qed.

(** *** delete *)

(** Whatever [delete] is given, one identifier or an array of them, it
    hands one request to the write endpoint and the body of that request
    is an array: an argument that is not an array is sent as a one-element
    array, an array is sent as it is; the promise settles as the request
    does. *)
Theorem delete_sends_array (this : CollectionManager)
        (documentIDs : JS.value) (w : World) :
  exists ids : JS.value,
    sent (snd (delete remote this documentIDs w))
    = sent w ++ [mkApiRequest
                   (endpoint_url (this_collectionID this) "/delete")
                   (Some ids) POST write]
    /\ JS.isArray ids = true
    /\ (JS.isArray documentIDs = false -> ids = JS.VArr [documentIDs])
    /\ (JS.isArray documentIDs = true -> ids = documentIDs)
    /\ fst (delete remote this documentIDs w)
       = Return
           (match remote (mkApiRequest
                            (endpoint_url (this_collectionID this) "/delete")
                            (Some ids) POST write) with
            | Fulfilled _ => Fulfilled tt
            | Rejected reason => Rejected reason
            end).
Proof.
  exists (if JS.isArray documentIDs then documentIDs
          else JS.VArr [documentIDs]).
  unfold delete, request, send, await, bind, modify, ret.
  destruct (JS.isArray documentIDs) eqn:E; cbn [negb fst snd sent];
    (repeat split; auto; try discriminate);
    match goal with
    | |- context [remote ?r] => destruct (remote r); reflexivity
    end.
Qed.

(** *** search *)

(** The request [search] sends. *)
Lemma search_fulfilled (this : CollectionManager) (query : JS.value)
      (w : World) (result : JS.value) :
  remote (mkApiRequest (endpoint_url (this_collectionID this) "/search")
            (Some query) POST read_query)
  = Fulfilled result ->
  search remote this query w
  = (Return
       (Fulfilled
          (JS.VObj
             (set_field "elapsed"
                (JS.VObj
                   [("raw",
                     JS.VNum (clock w (S (clockReads w))
                              - clock w (clockReads w)));
                    ("formatted",
                     JS.VStr
                       (Utils.formatDuration
                          (clock w (S (clockReads w))
                           - clock w (clockReads w))))])
                (spread result)))),
     mkWorld
       (sent w ++ [mkApiRequest
                     (endpoint_url (this_collectionID this) "/search")
                     (Some query) POST read_query])
       (clock w) (S (S (clockReads w))) (console w)).
Proof.
  intros Hr. unfold search, Date_now, request, send, await, bind, get,
    modify, ret. cbn [fst snd sent clock clockReads console].
  now rewrite Hr.
Qed.

(** When the service answers, [search] returns the answer with the field
    [elapsed] set: its [raw] is the difference of the two readings of the
    clock taken around the request, its [formatted] is [formatDuration]
    of that difference; an [elapsed] the service sent is overwritten, and
    every other field of the answer is returned as it came. *)
Theorem search_measures_elapsed (this : CollectionManager)
        (query : JS.value) (w : World) (result : JS.value) :
  remote (mkApiRequest (endpoint_url (this_collectionID this) "/search")
            (Some query) POST read_query)
  = Fulfilled result ->
  exists fields,
    fst (search remote this query w) = Return (Fulfilled (JS.VObj fields))
    /\ get_field "elapsed" fields
       = JS.VObj
           [("raw",
             JS.VNum (clock w (S (clockReads w)) - clock w (clockReads w)));
            ("formatted",
             JS.VStr
               (Utils.formatDuration
                  (clock w (S (clockReads w)) - clock w (clockReads w))))]
    /\ (forall key, key <> "elapsed" ->
                    get_field key fields = get_field key (spread result))
    /\ clockReads (snd (search remote this query w)) = S (S (clockReads w)).
Proof.
  intros Hr. rewrite (search_fulfilled this query w result Hr).
  eexists. split; [reflexivity|]. cbn [snd clockReads].
  split; [apply get_set_same|]. split; [|reflexivity].
  intros key Hne. now apply get_set_other.
Qed.

(** When the request fails, [search] is rejected with the reason of the
    request; the clock was read once, before the request, and not again. *)
Theorem search_rejected (this : CollectionManager) (query : JS.value)
        (w : World) (reason : JS.Exception) :
  remote (mkApiRequest (endpoint_url (this_collectionID this) "/search")
            (Some query) POST read_query)
  = Rejected reason ->
  search remote this query w
  = (Return (Rejected reason),
     mkWorld
       (sent w ++ [mkApiRequest
                     (endpoint_url (this_collectionID this) "/search")
                     (Some query) POST read_query])
       (clock w) (S (clockReads w)) (console w)).
Proof.
  intros Hr. unfold search, Date_now, request, send, await, bind, get,
    modify, ret. cbn [fst snd sent clock clockReads console].
  now rewrite Hr.
Qed.

(** *** insertHook *)

(** [insertHook] creates the hook in the collection its argument names,
    not in the collection of the manager it is called on: two managers
    behave alike.  Once the request succeeds the value returned names the
    hook by the name that was sent; a failed request rejects the call. *)
Theorem insertHook_addresses_config (this other : CollectionManager)
        (config : AddHookConfig) (w : World) :
  insertHook remote this config w = insertHook remote other config w
  /\ sent (snd (insertHook remote this config w))
     = sent w ++ [mkApiRequest
                    (endpoint_url (hook_collectionID config) "/hooks/create")
                    (Some (JS.VObj [("name", JS.VStr (hook_name config));
                                    ("code", JS.VStr (hook_code config))]))
                    POST write]
  /\ fst (insertHook remote this config w)
     = Return
         (match remote
                  (mkApiRequest
                     (endpoint_url (hook_collectionID config) "/hooks/create")
                     (Some (JS.VObj [("name", JS.VStr (hook_name config));
                                     ("code", JS.VStr (hook_code config))]))
                     POST write) with
          | Fulfilled _ =>
              Fulfilled (mkNewHookresponse (hook_name config)
                           (hook_collectionID config) (hook_code config))
          | Rejected reason => Rejected reason
          end).
Proof.
  unfold insertHook, request, send, await, bind, modify, ret.
  cbn [fst snd sent]. repeat split; try reflexivity;
    match goal with
    | |- context [remote ?r] => destruct (remote r); reflexivity
    end.
Qed.

(** *** insertTool *)

(** [insertTool] refuses parameters that are [undefined], a boolean or a
    number: it throws before anything is sent.  In every other case it
    sends one request whose [parameters] field is a string: the string it
    was given, as it is; for a Zod schema, the serialization of its JSON
    schema; for any other value it accepts, an object, an array or
    [null], the serialization of that value.  The other properties of the
    tool are sent unchanged. *)
Theorem insertTool_parameters_text (this : CollectionManager)
        (tool : InsertToolBody ZodType) (w : World) :
  match tool_parameters ZodType tool with
  | ParametersValue _ JS.VUndefined
  | ParametersValue _ (JS.VBool _)
  | ParametersValue _ (JS.VNum _) =>
      insertTool remote JSON_stringify ZodType zodToJsonSchema this tool w
      = (Throw (JS.Error
                  "Invalid parameters type. Must be string, object or ZodType"),
         w)
  | parameters =>
      exists text fields,
        sent (snd (insertTool remote JSON_stringify ZodType zodToJsonSchema
                     this tool w))
        = sent w ++ [mkApiRequest
                       (endpoint_url (this_collectionID this) "/tools/insert")
                       (Some (JS.VObj fields)) POST write]
        /\ get_field "parameters" fields = JS.VStr text
        /\ (forall key, key <> "parameters" ->
                        get_field key fields
                        = get_field key (tool_fields ZodType tool))
        /\ (forall given, parameters = ParametersValue _ (JS.VStr given) ->
                          text = given)
        /\ (forall schema, parameters = ParametersZod _ schema ->
                           text = JSON_stringify (zodToJsonSchema schema))
        /\ (forall value, parameters = ParametersValue _ value ->
                          (forall given, value <> JS.VStr given) ->
                          text = JSON_stringify value)
  end.
Proof.
  unfold insertTool, request, send, lift, bind, modify, ret.
  destruct (tool_parameters ZodType tool) as [schema|[| |b|n|text|items|fields]];
    cbn [toolParametersText fst snd sent]; try reflexivity;
    (eexists _, _; split; [reflexivity|]);
    (split; [apply get_set_same|]);
    (split; [intros key Hne; now apply get_set_other|]);
    (split; [intros; congruence|]);
    (split; [intros; congruence|]);
    intros value Hv Hs; try discriminate; injection Hv as <-;
    [reflexivity | now elim (Hs text) | reflexivity | reflexivity].
Qed.

(** An object, an array and [null] go out serialized, a string as it
    is, a number not at all. *)
Example insertTool_parameters_runs :
  map (fun parameters =>
         map api_body
           (sent (snd (insertTool remote JSON_stringify ZodType
                            zodToJsonSchema Samples.sampleManager
                            (mkInsertToolBody ZodType
                               (ParametersValue ZodType parameters) [])
                            Samples.sampleWorld))))
      [JS.VNull; JS.VArr []; JS.VObj []; JS.VStr "{}"; JS.VNum 1]
  = [[Some (JS.VObj [("parameters", JS.VStr (JSON_stringify JS.VNull))])];
     [Some (JS.VObj [("parameters",
                      JS.VStr (JSON_stringify (JS.VArr [])))])];
     [Some (JS.VObj [("parameters",
                      JS.VStr (JSON_stringify (JS.VObj [])))])];
     [Some (JS.VObj [("parameters", JS.VStr "{}")])];
     []].
Proof. reflexivity. Qed.

(** *** executeTools *)

(** When every text parses, the results come back one for one, with the
    names they had and the parsed arguments, in order. *)
Lemma parseResults_all (calls : list ToolCall) :
  Forall (fun call => completes (JSON_parse (call_arguments call)) = true)
    calls ->
  exists parsed,
    parseResults JSON_parse calls = Return parsed
    /\ map parsed_name parsed = map call_name calls
    /\ Forall2
         (fun call result =>
            JSON_parse (call_arguments call)
            = Return (parsed_arguments result))
         calls parsed.
Proof.
  induction 1 as [|call calls Hcall _ IH]; cbn.
  - exists []. repeat split. constructor.
  - destruct (JSON_parse (call_arguments call)) as [arguments|e] eqn:E;
      [|discriminate].
    destruct IH as (parsed & -> & Hnames & Hargs).
    eexists. split; [reflexivity|]. cbn. rewrite Hnames.
    split; [reflexivity|]. now constructor.
Qed.

(** When a text does not parse, the error of the first such text comes
    out. *)
Lemma parseResults_first_failure (before after : list ToolCall)
      (call : ToolCall) (e : JS.Exception) :
  Forall (fun call => completes (JSON_parse (call_arguments call)) = true)
    before ->
  JSON_parse (call_arguments call) = Throw e ->
  parseResults JSON_parse (before ++ call :: after) = Throw e.
Proof.
  intros Hbefore Hcall.
  induction Hbefore as [|c before Hc _ IH]; cbn.
  - now rewrite Hcall.
  - destruct (JSON_parse (call_arguments c)); [|discriminate].
    now rewrite IH.
Qed.

(** When the service answers [executeTools], the answer is written to the
    console, and: without results the call returns [results: null]; with
    results whose arguments all parse it returns as many results, with
    the same names in the same order and the arguments parsed, an empty
    list of results giving an empty list; if the arguments of a result do
    not parse the call is rejected with the error of the first such
    result. *)
Theorem executeTools_parses_results (this : CollectionManager)
        (tools : JS.value) (w : World) (response : ExecuteToolsResponse) :
  remoteTools (mkApiRequest (endpoint_url (this_collectionID this) "/tools/run")
                 (Some tools) POST read)
  = Fulfilled response ->
  console (snd (executeTools remoteTools JSON_parse this tools w))
  = console w ++ [response]
  /\ sent (snd (executeTools remoteTools JSON_parse this tools w))
     = sent w ++ [mkApiRequest
                    (endpoint_url (this_collectionID this) "/tools/run")
                    (Some tools) POST read]
  /\ (results response = None ->
      fst (executeTools remoteTools JSON_parse this tools w)
      = Return (Fulfilled (mkExecuteToolsParsedResponse None)))
  /\ (forall calls,
        results response = Some calls ->
        Forall
          (fun call => completes (JSON_parse (call_arguments call)) = true)
          calls ->
        exists parsed,
          fst (executeTools remoteTools JSON_parse this tools w)
          = Return (Fulfilled (mkExecuteToolsParsedResponse (Some parsed)))
          /\ List.length parsed = List.length calls
          /\ map parsed_name parsed = map call_name calls
          /\ Forall2
               (fun call result =>
                  JSON_parse (call_arguments call)
                  = Return (parsed_arguments result))
               calls parsed)
  /\ (forall before call after e,
        results response = Some (before ++ call :: after) ->
        Forall
          (fun call => completes (JSON_parse (call_arguments call)) = true)
          before ->
        JSON_parse (call_arguments call) = Throw e ->
        fst (executeTools remoteTools JSON_parse this tools w)
        = Return (Rejected e)).
Proof.
  intros Hr.
  assert (Hrun :
            executeTools remoteTools JSON_parse this tools w
            = (Return
                 match results response with
                 | Some calls =>
                     match parseResults JSON_parse calls with
                     | Return parsed =>
                         Fulfilled
                           (mkExecuteToolsParsedResponse (Some parsed))
                     | Throw e => Rejected e
                     end
                 | None => Fulfilled (mkExecuteToolsParsedResponse None)
                 end,
               mkWorld
                 (sent w ++ [mkApiRequest
                               (endpoint_url (this_collectionID this)
                                  "/tools/run")
                               (Some tools) POST read])
                 (clock w) (clockReads w) (console w ++ [response]))).
  { unfold executeTools, requestTools, send, console_log, await, bind,
      modify, ret.
    cbn [fst snd sent clock clockReads console]. rewrite Hr.
    cbn [fst snd sent clock clockReads console].
    destruct (results response) as [calls|]; [|reflexivity].
    destruct (parseResults JSON_parse calls); reflexivity. }
  rewrite Hrun. cbn [fst snd sent console].
  split; [reflexivity|]. split; [reflexivity|].
  split; [now intros ->|]. split.
  - intros calls -> Hall.
    destruct (parseResults_all calls Hall) as (parsed & -> & Hn & Ha).
    exists parsed. repeat split; auto.
    rewrite <- (length_map parsed_name), Hn. apply length_map.
  - intros before call after e -> Hbefore Hcall.
    now rewrite (parseResults_first_failure _ _ _ _ Hbefore Hcall).
Qed.

(** *** Every request of the manager *)

Lemma prefix_append (a b : string) : String.prefix a (a ++ b) = true.
Proof.
  induction a as [|c a IH]; cbn; [now destruct b|].
  destruct (Ascii.ascii_dec c c); [exact IH | contradiction].
Qed.

(** Every endpoint lies under the collection it belongs to. *)
Lemma endpoint_under_collection (collectionID rest : string) :
  String.prefix ("/v1/collections/" ++ collectionID ++ "/")
    (endpoint_url collectionID (String "/" rest))
  = true.
Proof.
  unfold endpoint_url.
  replace ("/v1/collections/" ++ collectionID ++ String "/" rest)%string
    with (("/v1/collections/" ++ collectionID ++ "/") ++ rest)%string.
  - apply prefix_append.
  - rewrite !append_assoc. reflexivity.
Qed.

(** What one call of a method sends. *)
Lemma perform_sends (this : CollectionManager) (op : Operation ZodType)
      (w : World) :
  sent (snd (perform remote remoteTools JSON_stringify JSON_parse ZodType
               zodToJsonSchema this op w))
  = sent w
  \/ exists path body method level,
      sent (snd (perform remote remoteTools JSON_stringify JSON_parse ZodType
                   zodToJsonSchema this op w))
      = sent w ++ [mkApiRequest
                     (endpoint_url (addressed ZodType this op)
                        (String "/" path))
                     body method level]
      /\ completes
           (fst (perform remote remoteTools JSON_stringify JSON_parse ZodType
                   zodToJsonSchema this op w))
         = true
      /\ (method = GET -> level <> write)
      /\ (level = write -> method = POST /\ body <> None).
Proof.
  destruct op;
    unfold perform, addressed, delete, search, insertHook, insertSegment,
      getSegment, getAllSegments, deleteSegment, updateSegment, getTrigger,
      getAllTriggers, deleteTrigger, updateTrigger, insertSystemPrompt,
      getSystemPrompt, getAllSystemPrompts, deleteSystemPrompt,
      updateSystemPrompt, validateSystemPrompt, insertTool, getTool,
      getAllTools, deleteTool, updateTool, executeTools,
      request, requestTools, send, Date_now, console_log, await, lift,
      bind, get, modify, ret;
    cbn [fst snd sent clock clockReads console];
    try match goal with
        | |- context [toolParametersText ?f ?Z ?z ?p] =>
            destruct (toolParametersText f Z z p);
            cbn [fst snd sent]; [|now left]
        end;
    try match goal with
        | |- context [remote ?r] => destruct (remote r)
        end;
    try match goal with
        | |- context [remoteTools ?r] =>
            destruct (remoteTools r) as [response|];
            [destruct (results response) as [calls|];
             [destruct (parseResults JSON_parse calls)|]|]
        end;
    cbn [fst snd sent clock clockReads console];
    right; eexists _, _, _, _;
    (split; [reflexivity|]); (split; [reflexivity|]);
    split; intros; try discriminate; (split; [reflexivity | discriminate]).
Qed.

(** Each call of a method of the manager sends at most one request, and
    none when it throws.  The request goes to an endpoint of the
    collection the call addresses; a GET never asks for the write key,
    and a request at the write level is always a POST that carries a
    body. *)
Theorem perform_well_formed (this : CollectionManager)
        (op : Operation ZodType) (w : World) :
  exists requests,
    sent (snd (perform remote remoteTools JSON_stringify JSON_parse ZodType
                 zodToJsonSchema this op w))
    = sent w ++ requests
    /\ (List.length requests <= 1)%nat
    /\ (completes
          (fst (perform remote remoteTools JSON_stringify JSON_parse ZodType
                  zodToJsonSchema this op w))
        = false -> requests = [])
    /\ Forall (well_formed (addressed ZodType this op)) requests.
Proof.
  destruct (perform_sends this op w)
    as [Hs | (path & body & method & level & Hs & Hc & Hget & Hwrite)].
  - exists []. rewrite app_nil_r. repeat split; auto.
  - eexists. split; [exact Hs|]. cbn [List.length].
    split; [lia|]. split; [rewrite Hc; discriminate|].
    constructor; [|constructor]. unfold well_formed. cbn [api_url api_method
      api_securityLevel api_body].
    split; [apply endpoint_under_collection|]. split; assumption.
Qed.

End ApiFacts.

Section ApiRuns.
Import Effect Collection CollectionApi Samples.

(** A search that took 1.5 s. *)
Example search_run :
  fst (search searchService sampleManager (JS.VObj [("term", JS.VStr "a")])
         sampleWorld)
  = Return
      (Fulfilled
         (JS.VObj
            [("count", JS.VNum 2);
             ("elapsed",
              JS.VObj [("raw", JS.VNum 1500);
                       ("formatted", JS.VStr "1.5s")])])).
Proof. vm_compute. reflexivity. Qed.

(** Arguments that are not JSON reject [executeTools]. *)
Example executeTools_bad_arguments :
  fst (executeTools
         (fun _ =>
            Fulfilled
              (mkExecuteToolsResponse
                 (Some [mkToolCall "sum" "{}"; mkToolCall "max" "oops"])))
         sampleJSONParse sampleManager JS.VNull sampleWorld)
  = Return (Rejected (JS.Error "SyntaxError")).
Proof. reflexivity. Qed.

Lemma search_measures_elapsed_witness :
  searchService
    (mkApiRequest (endpoint_url (this_collectionID sampleManager) "/search")
       (Some JS.VNull) POST read_query)
  = Fulfilled (JS.VObj [("count", JS.VNum 2); ("elapsed", JS.VStr "stale")])
  /\ exists fields,
      fst (search searchService sampleManager JS.VNull sampleWorld)
      = Return (Fulfilled (JS.VObj fields))
      /\ get_field "elapsed" fields
         = JS.VObj
             [("raw",
               JS.VNum (clock sampleWorld (S (clockReads sampleWorld))
                        - clock sampleWorld (clockReads sampleWorld)));
              ("formatted",
               JS.VStr
                 (Utils.formatDuration
                    (clock sampleWorld (S (clockReads sampleWorld))
                     - clock sampleWorld (clockReads sampleWorld))))]
      /\ (forall key, key <> "elapsed" ->
                      get_field key fields
                      = get_field key
                          (spread
                             (JS.VObj [("count", JS.VNum 2);
                                       ("elapsed", JS.VStr "stale")])))
      /\ clockReads (snd (search searchService sampleManager JS.VNull
                            sampleWorld))
         = S (S (clockReads sampleWorld)).
Proof.
  split; [reflexivity|].
  exact (search_measures_elapsed searchService sampleManager JS.VNull
           sampleWorld _ eq_refl).
Defined.

Lemma search_rejected_witness :
  offlineService
    (mkApiRequest (endpoint_url (this_collectionID sampleManager) "/search")
       (Some JS.VNull) POST read_query)
  = Rejected (JS.Error "offline")
  /\ search offlineService sampleManager JS.VNull sampleWorld
     = (Return (Rejected (JS.Error "offline")),
        mkWorld
          (sent sampleWorld
           ++ [mkApiRequest
                 (endpoint_url (this_collectionID sampleManager) "/search")
                 (Some JS.VNull) POST read_query])
          (clock sampleWorld) (S (clockReads sampleWorld))
          (console sampleWorld)).
Proof.
  split; [reflexivity|].
  exact (search_rejected offlineService sampleManager JS.VNull sampleWorld
           (JS.Error "offline") eq_refl).
Defined.

Lemma executeTools_parses_results_witness :
  toolsService
    (mkApiRequest
       (endpoint_url (this_collectionID sampleManager) "/tools/run")
       (Some JS.VNull) POST read)
  = Fulfilled toolsAnswer
  /\ results toolsAnswer = Some [mkToolCall "sum" "{}"]
  /\ Forall
       (fun call => completes (sampleJSONParse (call_arguments call)) = true)
       [mkToolCall "sum" "{}"]
  /\ exists parsed,
      fst (executeTools toolsService sampleJSONParse sampleManager JS.VNull
             sampleWorld)
      = Return (Fulfilled (mkExecuteToolsParsedResponse (Some parsed)))
      /\ List.length parsed = 1%nat
      /\ map parsed_name parsed = ["sum"].
Proof.
  assert (Hall : Forall
                   (fun call =>
                      completes (sampleJSONParse (call_arguments call))
                      = true)
                   [mkToolCall "sum" "{}"])
    by (constructor; [reflexivity | constructor]).
  split; [reflexivity|]. split; [reflexivity|]. split; [exact Hall|].
  destruct (executeTools_parses_results toolsService sampleJSONParse
              sampleManager JS.VNull sampleWorld toolsAnswer eq_refl)
    as (_ & _ & _ & Hparsed & _).
  destruct (Hparsed [mkToolCall "sum" "{}"] eq_refl Hall)
    as (parsed & Hrun & Hlen & Hnames & _).
  exists parsed. repeat split; assumption.
Defined.

End ApiRuns.
